(** * MCP-RAG: the ingestion and retrieval pipeline of [scripts/rag_processor.py]

    A shallow embedding of the chunker, the content identity, the embedder,
    the PostgreSQL store and the ingestion driver, together with the query
    paths of [scripts/mcp_rag_server.py] and [scripts/check_db.py].

    Conventions.
    - A Python [str] is a [string]; a character stands for the code point
      of the same number, so the texts covered are those of code points
      below 256.  [encode] is UTF-8 on that range.
    - Python integers are [Z].
    - A function that may raise returns a [result].
    - The loop of [auto_chunk], which need not terminate, is run with fuel:
      [None] is a run that has not returned when the fuel is spent. *)

From Stdlib Require Import Ascii String QArith.
From stdpp Require Import gmap strings list sorting.

Local Open Scope string_scope.
Local Open Scope list_scope.
Local Open Scope Z_scope.

(** ** Outcomes of Python code *)

Inductive exn : Type :=
  | TypeError
  | NameError
  | KeyError
  | OSError
  | UnicodeDecodeError
  | HTTPError
  | ConnectionError
  | JSONDecodeError
  | DataError
  | OperationalError
  | ProgrammingError
  | InFailedSqlTransaction.

Inductive result (A : Type) : Type :=
  | Ok (a : A)
  | Raise (e : exn).

Arguments Ok {A} a.
Arguments Raise {A} e.

(** Sequencing: an exception of the first step is the outcome of the whole. *)
#[global] Instance result_bind : MBind result := fun A B k m =>
  match m with
  | Ok a => k a
  | Raise e => Raise e
  end.

(** ** Configuration constants of [rag_processor.py] *)

Definition EMBEDDING_DIM : nat := 768.
Definition DEFAULT_CHUNK_SIZE : Z := 800.
Definition DEFAULT_OVERLAP : Z := 120.

(** ** Strings *)

(** [str.isspace] on the code points below 256: TAB..CR, FS..US, SPACE,
    NEL (0x85) and NBSP (0xA0). *)
Definition is_space (c : ascii) : bool :=
  let n := Ascii.nat_of_ascii c in
  ((9 <=? n) && (n <=? 13) || (28 <=? n) && (n <=? 32)
   || (n =? 133) || (n =? 160))%nat.

(** [text.split()]: the maximal runs of characters that are not white space.
    [cur] is the word being read. *)
Fixpoint split_from (cur : string) (s : string) : list string :=
  match s with
  | EmptyString => match cur with EmptyString => [] | _ => [cur] end
  | String c s' =>
      if is_space c then
        match cur with
        | EmptyString => split_from "" s'
        | _ => cur :: split_from "" s'
        end
      else split_from (cur +:+ String c "") s'
  end.

Definition split (text : string) : list string := split_from "" text.

(** [sep.join(parts)] *)
Fixpoint join (sep : string) (parts : list string) : string :=
  match parts with
  | [] => ""
  | [w] => w
  | w :: rest => w +:+ sep +:+ join sep rest
  end.

(** An index of a slice, as Python resolves it against a length: a negative
    index counts from the end, and the result is clamped to [0, len]. *)
Definition slice_index (len i : Z) : Z :=
  if i <? 0 then Z.max 0 (i + len) else Z.min i len.

(** [l[start:stop]] *)
Definition py_slice {A : Type} (l : list A) (start stop : Z) : list A :=
  let len := Z.of_nat (length l) in
  let lo := slice_index len start in
  let hi := slice_index len stop in
  take (Z.to_nat (hi - lo)) (drop (Z.to_nat lo) l).

(** ** Chunking *)

(** The adjustment of the window at the head of [auto_chunk], on the number
    of words [n]: the effective [(target_size, overlap)]. *)
Definition adjust (n target_size overlap : Z) : Z * Z :=
  if n <? target_size then
    let target_size := Z.max 50 (n / 2) in
    (target_size, Z.max 10 (target_size / 10))
  else if 5000 <? n then (Z.min (target_size * 2) 2000, overlap)
  else (target_size, overlap).

(** The [while start < len(words)] loop; one unit of fuel per iteration. *)
Fixpoint chunk_loop (fuel : nat) (words : list string)
    (target_size overlap start : Z) (chunks : list string)
    : option (list string) :=
  if start <? Z.of_nat (length words) then
    match fuel with
    | O => None
    | S fuel' =>
        let end_ := start + target_size in
        let chunk_words := py_slice words start end_ in
        chunk_loop fuel' words target_size overlap (end_ - overlap)
          (chunks ++ [join " " chunk_words])
    end
  else Some chunks.

Definition auto_chunk (fuel : nat) (text : string) (target_size overlap : Z)
    : option (list string) :=
  let words := split text in
  let '(target_size, overlap) :=
    adjust (Z.of_nat (length words)) target_size overlap in
  chunk_loop fuel words target_size overlap 0 [].

(** The words of the chunks with the overlap taken out: the first chunk
    whole, every later chunk without its first [overlap] words. *)
Definition non_overlapping (overlap : Z) (chunks : list string) : list string :=
  match chunks with
  | [] => []
  | c :: rest =>
      split c ++ concat (map (fun c' => drop (Z.to_nat overlap) (split c')) rest)
  end.

(** ** Content identity *)

(** [str.encode()]: UTF-8, one byte below 128 and two bytes from 128 on. *)
Definition encode_char (c : ascii) : list Z :=
  let n := Z.of_nat (Ascii.nat_of_ascii c) in
  if n <? 128 then [n] else [192 + n / 64; 128 + n mod 64].

Fixpoint encode (s : string) : list Z :=
  match s with
  | EmptyString => []
  | String c s' => encode_char c ++ encode s'
  end.

(** [hashlib.sha1], after FIPS 180-4, on 32-bit words kept in [Z]. *)
Module hashlib.

Definition w32 (x : Z) : Z := x mod 2 ^ 32.

Definition rotl (n x : Z) : Z :=
  w32 (Z.lor (Z.shiftl x n) (Z.shiftr x (32 - n))).

Definition add32 (x y : Z) : Z := w32 (x + y).

(** The message, the byte 0x80, zero bytes up to 56 modulo 64 and the
    length in bits on eight bytes, big-endian. *)
Definition be_bytes (width : nat) (x : Z) : list Z :=
  map (fun i => Z.shiftr x (8 * Z.of_nat i) mod 256) (rev (seq 0 width)).

Definition pad (msg : list Z) : list Z :=
  let len := Z.of_nat (length msg) in
  msg ++ [128] ++ replicate (Z.to_nat ((55 - len) mod 64)) 0
      ++ be_bytes 8 (8 * len).

Definition be_word (bs : list Z) : Z :=
  fold_left (fun acc b => acc * 256 + b) bs 0.

Fixpoint words_of (n : nat) (bs : list Z) : list Z :=
  match n with
  | O => []
  | S n' => be_word (take 4 bs) :: words_of n' (drop 4 bs)
  end.

(** The message schedule of one block: sixteen words, then
    [w t = rotl 1 (w (t-3) xor w (t-8) xor w (t-14) xor w (t-16))]. *)
Definition word_at (w : list Z) (i : nat) : Z := nth i w 0.

Fixpoint extend (n : nat) (w : list Z) : list Z :=
  match n with
  | O => w
  | S n' =>
      let t := length w in
      let x := Z.lxor (Z.lxor (word_at w (t - 3)) (word_at w (t - 8)))
                      (Z.lxor (word_at w (t - 14)) (word_at w (t - 16))) in
      extend n' (w ++ [rotl 1 x])
  end.

Definition f (t : nat) (b c d : Z) : Z :=
  if (t <? 20)%nat then Z.lor (Z.land b c) (Z.land (Z.lxor b 4294967295) d)
  else if (t <? 40)%nat then Z.lxor (Z.lxor b c) d
  else if (t <? 60)%nat then
    Z.lor (Z.lor (Z.land b c) (Z.land b d)) (Z.land c d)
  else Z.lxor (Z.lxor b c) d.

Definition k (t : nat) : Z :=
  if (t <? 20)%nat then 1518500249
  else if (t <? 40)%nat then 1859775393
  else if (t <? 60)%nat then 2400959708
  else 3395469782.

Definition state : Type := Z * Z * Z * Z * Z.

Definition round (w : list Z) (h : state) (t : nat) : state :=
  let '(a, b, c, d, e) := h in
  let temp :=
    add32 (add32 (add32 (add32 (rotl 5 a) (f t b c d)) e) (k t)) (word_at w t)
  in (temp, a, rotl 30 b, c, d).

Definition compress (h : state) (block : list Z) : state :=
  let w := extend 64 (words_of 16 block) in
  let '(a, b, c, d, e) := fold_left (round w) (seq 0 80) h in
  let '(h0, h1, h2, h3, h4) := h in
  (add32 h0 a, add32 h1 b, add32 h2 c, add32 h3 d, add32 h4 e).

Fixpoint blocks (n : nat) (h : state) (bs : list Z) : state :=
  match n with
  | O => h
  | S n' => blocks n' (compress h (take 64 bs)) (drop 64 bs)
  end.

Definition sha1 (msg : list Z) : state :=
  let padded := pad msg in
  blocks (length padded / 64)%nat
    (1732584193, 4023233417, 2562383102, 271733878, 3285377520) padded.

Definition hex_digit (n : Z) : ascii :=
  Ascii.ascii_of_nat (Z.to_nat (if n <? 10 then 48 + n else 87 + n)).

Definition hex_word (x : Z) : string :=
  string_of_list_ascii
    (map (fun i => hex_digit (Z.shiftr x (4 * Z.of_nat i) mod 16))
         (rev (seq 0 8))).

Definition hexdigest (h : state) : string :=
  let '(h0, h1, h2, h3, h4) := h in
  hex_word h0 +:+ hex_word h1 +:+ hex_word h2 +:+ hex_word h3 +:+ hex_word h4.

End hashlib.

(** [hash_id(text, collection)]: the digest of [f"{collection}:{text}"]. *)
Definition hash_id (text collection : string) : string :=
  hashlib.hexdigest (hashlib.sha1 (encode (collection +:+ ":" +:+ text))).

(** ** The embedding service *)

(** A vector is a JSON array of numbers; its coordinates are kept as
    rationals and are only ever handed to the distance operators. *)
Definition vector : Type := list Q.

(** [requests.post(url, json={"model": .., "prompt": ..}, timeout=60)] *)
Record request : Type := {
  url : string;
  request_model : string;
  prompt : string
}.

Inductive body : Type :=
  | NotJson
  | Json (embedding : option vector).

Inductive reply : Type :=
  | NoReply
  | Reply (status_code : Z) (content : body).

Record Embedder : Type := { model : string; base_url : string }.

(** [s.rstrip(ch)] for a single character *)
Fixpoint rstrip (ch : ascii) (s : string) : string :=
  match s with
  | EmptyString => ""
  | String c s' =>
      match rstrip ch s' with
      | EmptyString => if Ascii.eqb c ch then "" else String c ""
      | r => String c r
      end
  end.

Definition Embedder_init (model base_url : string) : Embedder :=
  {| model := model; base_url := rstrip "/" base_url |}.

Definition default_embedder : Embedder :=
  Embedder_init "nomic-embed-text" "http://localhost:11434".

(** [r.raise_for_status()] *)
Definition raise_for_status (status_code : Z) : result unit :=
  if (400 <=? status_code) && (status_code <? 600) then Raise HTTPError
  else Ok tt.

(** [r.json()["embedding"]] *)
Definition json_embedding (content : body) : result vector :=
  match content with
  | NotJson => Raise JSONDecodeError
  | Json None => Raise KeyError
  | Json (Some v) => Ok v
  end.

(** One request of the loop of [embed]. *)
Definition embed_one (post : request -> reply) (self : Embedder)
    (text : string) : result vector :=
  match post {| url := base_url self +:+ "/api/embeddings";
                request_model := model self;
                prompt := text |} with
  | NoReply => Raise ConnectionError
  | Reply status_code content =>
      _ ← raise_for_status status_code;
      json_embedding content
  end.

(** The network as one call of [embed] sees it: what the [i]-th request of
    the call is answered. *)
Definition network : Type := nat -> request -> reply.

Fixpoint embed_loop (net : network) (self : Embedder) (i : nat)
    (texts : list string) (vectors : list vector) : result (list vector) :=
  match texts with
  | [] => Ok vectors
  | text :: rest =>
      v ← embed_one (net i) self text;
      embed_loop net self (S i) rest (vectors ++ [v])
  end.

(** The argument of [embed]: a [str] or a sequence of [str]. *)
Inductive texts_arg : Type :=
  | Str (s : string)
  | Strs (l : list string).

Definition embed (net : network) (self : Embedder) (texts : texts_arg)
    : result (list vector) :=
  let texts := match texts with Str s => [s] | Strs l => l end in
  embed_loop net self 0 texts [].

Definition embed_batch (net : network) (self : Embedder) (texts : texts_arg)
    : result (list vector) :=
  embed net self texts.

(** ** The store *)

(** [vmetadata]: the JSON object [{"source": .., "product": ..}]. *)
Record metadata : Type := { source : string; product : string }.

(** A row of [document_chunk]. *)
Record row : Type := {
  row_id : string;
  row_vector : vector;
  row_collection_name : string;
  row_text : string;
  row_vmetadata : metadata
}.

(** The table, keyed by its primary key [id]. *)
Abbreviation table := (gmap string row).

(** [INSERT INTO document_chunk .. VALUES (..) ON CONFLICT (id) DO NOTHING]:
    the value must fit the column type [vector(EMBEDDING_DIM)]; a row whose
    [id] is taken is left out. *)
Definition insert_row (r : row) (t : table) : result table :=
  if bool_decide (length (row_vector r) = EMBEDDING_DIM) then
    match t !! row_id r with
    | Some _ => Ok t
    | None => Ok (<[row_id r := r]> t)
    end
  else Raise DataError.

(** A connection with [autocommit = False]: the rows every session sees
    ([committed]) and the state of the open transaction. *)
Inductive transaction : Type :=
  | Idle
  | Active (work : table)
  | Aborted.

Record connection : Type := { committed : table; tx : transaction }.

Definition connect (store : table) : connection :=
  {| committed := store; tx := Idle |}.

(** One [INSERT] inside the transaction, which the first statement opens;
    a failed statement aborts the transaction. *)
Definition execute_insert (r : row) (c : connection)
    : result unit * connection :=
  match tx c with
  | Aborted => (Raise InFailedSqlTransaction, c)
  | Idle | Active _ =>
      let work := match tx c with Active w => w | _ => committed c end in
      match insert_row r work with
      | Ok work' => (Ok tt, {| committed := committed c; tx := Active work' |})
      | Raise e => (Raise e, {| committed := committed c; tx := Aborted |})
      end
  end.

(** The statements of one page, sent as one command. *)
Fixpoint execute_page (page : list row) (c : connection)
    : result unit * connection :=
  match page with
  | [] => (Ok tt, c)
  | r :: rest =>
      match execute_insert r c with
      | (Ok _, c') => execute_page rest c'
      | failure => failure
      end
  end.

(** [psycopg2.extras._paginate]: the pages of [page_size] items, the last
    one shorter.  There are no more pages than items, which is the fuel. *)
Fixpoint paginate {A : Type} (fuel : nat) (page_size : nat) (seq : list A)
    : list (list A) :=
  match fuel, seq with
  | S fuel', _ :: _ =>
      take page_size seq :: paginate fuel' page_size (drop page_size seq)
  | _, _ => []
  end.

Fixpoint execute_pages (pages : list (list row)) (c : connection)
    : result unit * connection :=
  match pages with
  | [] => (Ok tt, c)
  | page :: rest =>
      match execute_page page c with
      | (Ok _, c') => execute_pages rest c'
      | failure => failure
      end
  end.

(** [execute_batch(cursor, sql, rows, page_size)] *)
Definition execute_batch (rows : list row) (page_size : nat) (c : connection)
    : result unit * connection :=
  execute_pages (paginate (length rows) page_size rows) c.

(** [conn.commit()]: the work of an open transaction becomes visible; the
    commit of an aborted transaction rolls it back. *)
Definition commit (c : connection) : connection :=
  match tx c with
  | Active work => {| committed := work; tx := Idle |}
  | Idle | Aborted => {| committed := committed c; tx := Idle |}
  end.

(** [DatabaseManager.insert_chunks] *)
Definition insert_chunks (rows : list row) (c : connection)
    : result unit * connection :=
  match execute_batch rows 100 c with
  | (Ok _, c') => (Ok tt, commit c')
  | failure => failure
  end.

(** What is left of a connection when its process stops: the transaction
    in progress is gone. *)
Definition crash (c : connection) : table := committed c.

(** ** Nearest-neighbour queries *)

(** The distance operators of pgvector and the operator classes an index
    is built with. *)
Inductive metric : Type :=
  | Euclidean
  | Cosine
  | InnerProduct.

Inductive operator : Type :=
  | op_l2        (* <-> *)
  | op_cosine    (* <=> *)
  | op_ip.       (* <#> *)

Inductive opclass : Type :=
  | vector_l2_ops
  | vector_cosine_ops
  | vector_ip_ops.

Definition operator_metric (o : operator) : metric :=
  match o with
  | op_l2 => Euclidean
  | op_cosine => Cosine
  | op_ip => InnerProduct
  end.

Definition opclass_metric (o : opclass) : metric :=
  match o with
  | vector_l2_ops => Euclidean
  | vector_cosine_ops => Cosine
  | vector_ip_ops => InnerProduct
  end.

#[global] Instance metric_eq_dec : EqDecision metric.
Proof. solve_decision. Defined.

Inductive index_method : Type :=
  | ivfflat
  | hnsw.

Record vector_index : Type := {
  index_name : string;
  access_method : index_method;
  ops : opclass
}.

(** The two [CREATE INDEX .. ON document_chunk USING .. (vector ..)]
    statements of [initialize_schema]. *)
Definition initialize_schema_indexes : list vector_index :=
  [ {| index_name := "idx_document_chunk_vector_ivfflat";
       access_method := ivfflat; ops := vector_cosine_ops |};
    {| index_name := "idx_document_chunk_vector_hnsw";
       access_method := hnsw; ops := vector_cosine_ops |} ].

(** A value bound to a [%s], and a place of a statement that holds either
    a [%s] or text written into the statement. *)
Inductive sqlval : Type :=
  | SText (s : string)
  | SInt (n : Z)
  | SArray (v : vector).

Inductive slot : Type :=
  | Placeholder
  | Inline (v : sqlval).

(** [SELECT .., vector op q AS distance FROM document_chunk
     [WHERE collection_name = ..] ORDER BY vector op q LIMIT ..] *)
Record select : Type := {
  select_operator : operator;
  select_query : vector;
  where_collection_name : option slot;
  limit_ : slot
}.

Definition slots (q : select) : list slot :=
  match where_collection_name q with
  | Some s => [s; limit_ q]
  | None => [limit_ q]
  end.

Definition is_placeholder (s : slot) : bool :=
  match s with
  | Placeholder => true
  | Inline _ => false
  end.

Definition placeholders (q : select) : nat :=
  length (List.filter is_placeholder (slots q)).

(** The merge of a statement with its arguments: every [%s] takes one
    argument, and no argument may be left over. *)
Fixpoint merge_args (ss : list slot) (args : list sqlval)
    : result (list sqlval) :=
  match ss, args with
  | [], [] => Ok []
  | [], _ :: _ => Raise TypeError
  | Inline v :: ss', _ => vs ← merge_args ss' args; Ok (v :: vs)
  | Placeholder :: _, [] => Raise TypeError
  | Placeholder :: ss', a :: args' => vs ← merge_args ss' args'; Ok (a :: vs)
  end.

Record hit : Type := { hit_row : row; distance : Q }.

#[global] Instance Qle_dec : RelDecision Qle.
Proof.
  intros x y. destruct (Qlt_le_dec y x) as [H | H].
  - right. intros H'. exact (Qlt_not_le _ _ H H').
  - left. exact H.
Defined.

Definition closer (a b : hit) : Prop := (distance a <= distance b)%Q.

#[global] Instance closer_dec : RelDecision closer.
Proof. intros a b. unfold closer. apply _. Defined.

(** The most dimensions a value of the type [vector] has on the server. *)
Definition VECTOR_MAX_DIM : Z := 16000.

(** An operator that an index of [initialize_schema] orders by: its
    statement may be answered from that index, which looks at part of the
    table only. *)
Definition index_served (o : operator) : bool :=
  existsb (fun ix => bool_decide (opclass_metric (ops ix) = operator_metric o))
    initialize_schema_indexes.

(** What the server answers.  The vector written into the statement is read
    first: it has at least one and at most [VECTOR_MAX_DIM] coordinates.
    The limit is a [bigint] that is not negative, and with the limit 0 no
    row is looked at.  Otherwise the distance is taken to every row scanned,
    which fails on a row of another dimension.  The scan is the rows
    [visited] of the index when the operator is served by one, and else the
    rows that pass the [WHERE] clause; the rows kept come closest first, cut
    at the limit. *)
Definition run_select (dist : metric -> vector -> vector -> Q)
    (visited : row -> bool)
    (q : select) (values : list sqlval) (t : table) : result (list hit) :=
  let dim := Z.of_nat (length (select_query q)) in
  let scored (keep : row -> bool) (k : Z) : result (list hit) :=
    if dim =? 0 then Raise DataError
    else if VECTOR_MAX_DIM <? dim then Raise OperationalError
    else if (k <? 0) || (2 ^ 63 <=? k) then Raise DataError
    else if k =? 0 then Ok []
    else
      let stored := map snd (map_to_list t) in
      let scanned :=
        if index_served (select_operator q) then List.filter visited stored
        else filter (fun r => keep r = true) stored in
      let rows :=
        if index_served (select_operator q)
        then filter (fun r => keep r = true) scanned
        else scanned in
      let hits :=
        map (fun r => {| hit_row := r;
                         distance := dist (operator_metric (select_operator q))
                                          (row_vector r) (select_query q) |})
            rows in
      if forallb (fun r => Z.of_nat (length (row_vector r)) =? dim) scanned
      then Ok (take (Z.to_nat k) (merge_sort closer hits))
      else Raise DataError in
  match where_collection_name q, values with
  | Some _, [SText c; SInt k] =>
      scored (fun r => String.eqb (row_collection_name r) c) k
  | None, [SInt k] => scored (fun _ => true) k
  | _, _ => Raise ProgrammingError
  end.

(** [cursor.execute(sql, args)] followed by [cursor.fetchall()] *)
Definition execute_select (dist : metric -> vector -> vector -> Q)
    (visited : row -> bool)
    (q : select) (args : list sqlval) (t : table) : result (list hit) :=
  values ← merge_args (slots q) args;
  run_select dist visited q values t.

(** The statement of [DatabaseManager.similarity_search] and of
    [search_documents]: the vector is written into the text, the
    collection and the limit are [%s]. *)
Definition similarity_statement (query_vector : vector) : select :=
  {| select_operator := op_l2;
     select_query := query_vector;
     where_collection_name := Some Placeholder;
     limit_ := Placeholder |}.

(** [DatabaseManager.similarity_search]: rows of [(text, vmetadata, distance)] *)
Definition similarity_search (dist : metric -> vector -> vector -> Q)
    (c : connection) (query_vector : vector) (collection : string) (limit : Z)
    : result (list (string * metadata * Q)) :=
  hits ← execute_select dist (fun _ => true) (similarity_statement query_vector)
           [SArray query_vector; SText collection; SInt limit] (committed c);
  Ok (map (fun h => (row_text (hit_row h), row_vmetadata (hit_row h), distance h))
          hits).

(** [get_embedding] of the server *)
Definition get_embedding (post : request -> reply) (text : string)
    : result vector :=
  match post {| url := "http://localhost:11434" +:+ "/api/embeddings";
                request_model := "nomic-embed-text";
                prompt := text |} with
  | NoReply => Raise ConnectionError
  | Reply status_code content =>
      _ ← raise_for_status status_code;
      json_embedding content
  end.

(** [search_documents] of the server *)
Definition search_documents (post : request -> reply)
    (dist : metric -> vector -> vector -> Q) (store : table)
    (query collection : string) (limit : Z)
    : result (list (string * metadata * Q)) :=
  query_vector ← get_embedding post query;
  hits ← execute_select dist (fun _ => true) (similarity_statement query_vector)
           [SText collection; SInt limit] store;
  Ok (map (fun h => (row_text (hit_row h), row_vmetadata (hit_row h), distance h))
          hits).

(** The statement of [check_db.py]: no collection, the limit [TOP_K]
    written into the statement, no arguments. *)
Definition TOP_K : Z := 3.

Definition check_db_statement (query_vector : vector) : select :=
  {| select_operator := op_cosine;
     select_query := query_vector;
     where_collection_name := None;
     limit_ := Inline (SInt TOP_K) |}.

(** ** Ingestion *)

(** The parts of [os] and of the file system the driver touches:
    [os.walk(folder)] as its [(root, filenames)] pairs, [open(..).read()]
    and [os.path.relpath]. *)
Record filesystem : Type := {
  walk : string -> list (string * list string);
  read_text : string -> result string;
  relpath : string -> string -> string
}.

(** [str.lower] on the code points below 256 *)
Definition lower_char (c : ascii) : ascii :=
  let n := Ascii.nat_of_ascii c in
  if ((65 <=? n) && (n <=? 90)
      || (192 <=? n) && (n <=? 222) && negb (n =? 215))%nat
  then Ascii.ascii_of_nat (n + 32) else c.

Fixpoint lower (s : string) : string :=
  match s with
  | EmptyString => ""
  | String c s' => String (lower_char c) (lower s')
  end.

Definition endswith (s suffix : string) : bool :=
  let n := String.length s in
  let m := String.length suffix in
  (m <=? n)%nat && String.eqb (substring (n - m) m s) suffix.

(** [os.path.join(root, f)] on POSIX *)
Definition path_join (root f : string) : string :=
  if String.prefix "/" f then f
  else if String.eqb root "" || endswith root "/" then root +:+ f
  else root +:+ "/" +:+ f.

(** [os.path.basename]: what follows the last [/]. *)
Fixpoint basename (p : string) : string :=
  match p with
  | EmptyString => ""
  | String c p' =>
      if existsb (Ascii.eqb "/") (list_ascii_of_string p') then basename p'
      else if Ascii.eqb c "/" then p' else p
  end.

(** [s.split(os.sep)[0]]: what precedes the first [/]. *)
Fixpoint first_component (s : string) : string :=
  match s with
  | EmptyString => ""
  | String c s' => if Ascii.eqb c "/" then "" else String c (first_component s')
  end.

(** [process_file(embedder, chunks, file, collection)].  [base_folder] is
    read as a global of the module: [None] when no such name is bound. *)
Definition process_file (fs : filesystem) (net : network)
    (base_folder : option string)
    (embedder : Embedder) (chunks : list string) (file collection : string)
    : result (list row) :=
  vectors ← embed net embedder (Strs chunks);
  match base_folder with
  | None => Raise NameError
  | Some base_folder =>
      let rel_path := relpath fs file base_folder in
      let product := first_component rel_path in
      Ok (map (fun '(chunk, vector) =>
                 {| row_id := hash_id chunk collection;
                    row_vector := vector;
                    row_collection_name := collection;
                    row_text := chunk;
                    row_vmetadata := {| source := basename file;
                                        product := product |} |})
              (zip chunks vectors))
  end.

(** The module binds no [base_folder]. *)
Definition module_base_folder : option string := None.

(** A positional argument of a call. *)
Inductive pyobj : Type :=
  | PEmbedder (e : Embedder)
  | PList (l : list string)
  | PStr (s : string).

(** A call of [process_file] with a list of positional arguments: four
    parameters, exactly four arguments. *)
Definition call_process_file (fs : filesystem) (net : network)
    (base_folder : option string) (args : list pyobj) : result (list row) :=
  match args with
  | [PEmbedder embedder; PList chunks; PStr file; PStr collection] =>
      process_file fs net base_folder embedder chunks file collection
  | _ => Raise TypeError
  end.

(** The files of [ingest_folder]: every name under [folder] whose lower
    case ends in [.txt] or [.md]. *)
Definition list_files (fs : filesystem) (folder : string) : list string :=
  concat (map (fun '(root, filenames) =>
                 map (path_join root)
                     (List.filter (fun f => endswith (lower f) ".txt"
                                            || endswith (lower f) ".md")
                                  filenames))
              (walk fs folder)).

(** A future, by its outcome. *)
Definition future : Type := result (list row).

(** The first loop of [ingest_folder]: read, chunk with the default window,
    submit.  [submit] is what the pool runs for one file.  The chunker runs
    with one unit of fuel per character of the text. *)
Fixpoint submit_all (fs : filesystem)
    (submit : list string -> string -> future)
    (files : list string) (futures : list future)
    : option (result (list future)) :=
  match files with
  | [] => Some (Ok futures)
  | file :: rest =>
      match read_text fs file with
      | Raise e => Some (Raise e)
      | Ok text =>
          match auto_chunk (String.length text) text
                  DEFAULT_CHUNK_SIZE DEFAULT_OVERLAP with
          | None => None
          | Some chunks =>
              submit_all fs submit rest (futures ++ [submit chunks file])
          end
      end
  end.

(** The second loop: [rows.extend(future.result())] over the futures as
    they complete. *)
Fixpoint gather (completed : list future) (rows : list row)
    : result (list row) :=
  match completed with
  | [] => Ok rows
  | fut :: rest => produced ← fut; gather rest (rows ++ produced)
  end.

(** The rows [ingest_folder] hands to [insert_chunks], for any task given
    to the pool.  [as_completed] is the order in which the futures
    complete. *)
Definition ingest_rows
    (task : Embedder -> list string -> string -> string -> string -> future)
    (fs : filesystem) (as_completed : list future -> list future)
    (embedder : Embedder) (folder collection : string)
    : option (result (list row)) :=
  let files := list_files fs folder in
  match
    submit_all fs
      (fun chunks file => task embedder chunks file collection folder)
      files []
  with
  | None => None
  | Some (Raise e) => Some (Raise e)
  | Some (Ok futures) => Some (gather (as_completed futures) [])
  end.

(** [ingest_folder], for any task given to the pool. *)
Definition ingest_folder_with
    (task : Embedder -> list string -> string -> string -> string -> future)
    (fs : filesystem) (as_completed : list future -> list future)
    (db : connection) (embedder : Embedder) (folder collection : string)
    : option (result unit * connection) :=
  match ingest_rows task fs as_completed embedder folder collection with
  | None => None
  | Some (Raise e) => Some (Raise e, db)
  | Some (Ok rows) => Some (insert_chunks rows db)
  end.

(** The task as [ingest_folder] submits it:
    [executor.submit(process_file, embedder, chunks, file, collection, folder)].
    [net file] is the network as the worker of [file] sees it. *)
Definition submitted_task (fs : filesystem) (net : string -> network)
    (embedder : Embedder) (chunks : list string)
    (file collection folder : string) : future :=
  call_process_file fs (net file) module_base_folder
    [PEmbedder embedder; PList chunks; PStr file; PStr collection; PStr folder].

Definition ingest_folder (fs : filesystem) (net : string -> network)
    (as_completed : list future -> list future)
    (db : connection) (embedder : Embedder) (folder collection : string)
    : option (result unit * connection) :=
  ingest_folder_with (submitted_task fs net) fs as_completed
    db embedder folder collection.

(** ** Predicates of the statements below *)

(** A word: not empty and without white space. *)
Fixpoint no_space (w : string) : bool :=
  match w with
  | EmptyString => true
  | String c w' => negb (is_space c) && no_space w'
  end.

Definition word (w : string) : Prop := w <> "" /\ no_space w = true.

(** The table as the open transaction sees it. *)
Definition working (c : connection) : table :=
  match tx c with
  | Active work => work
  | Idle | Aborted => committed c
  end.

(** The statements of a batch, one after the other, on a table. *)
Fixpoint insert_all (rows : list row) (t : table) : result table :=
  match rows with
  | [] => Ok t
  | r :: rest => t' ← insert_row r t; insert_all rest t'
  end.

(** A [DocumentChunk]: its vector has the dimension of the deployment. *)
Definition document_chunk (r : row) : Prop :=
  length (row_vector r) = EMBEDDING_DIM.

(** The text of 5001 words [w]. *)
Definition long_text : string := join " " (replicate (Z.to_nat 5001) "w").

(** The future of a file: its text read and chunked, its task run. *)
Definition submitted (fs : filesystem)
    (submit : list string -> string -> future)
    (file : string) (fut : future) : Prop :=
  exists text chunks,
    read_text fs file = Ok text
    /\ auto_chunk (String.length text) text
         DEFAULT_CHUNK_SIZE DEFAULT_OVERLAP = Some chunks
    /\ fut = submit chunks file.

(** A string without the separator [:] of [hash_id]. *)
Fixpoint no_colon (s : string) : bool :=
  match s with
  | EmptyString => true
  | String c s' => negb (Ascii.eqb c ":") && no_colon s'
  end.

(** ** Example data *)

Definition zero_vector : vector := replicate EMBEDDING_DIM 0%Q.

(** A folder [docs] with two files; below it the relative path of a file
    is its base name. *)
Definition two_files : filesystem :=
  {| walk := fun _ => [("docs", ["a.txt"; "b.txt"])];
     read_text := fun file =>
       Ok (if String.eqb file "docs/a.txt" then "alpha beta gamma"
           else "delta epsilon");
     relpath := fun path _ => basename path |}.

(** A service that answers 500 to the worker of [docs/a.txt] and an
    embedding to every other worker. *)
Definition one_bad_service (file : string) : network :=
  fun _ _ =>
    if String.eqb file "docs/a.txt" then Reply 500 NotJson
    else Reply 200 (Json (Some zero_vector)).

Definition good_service (file : string) : network :=
  fun _ _ => Reply 200 (Json (Some zero_vector)).

Definition example_row (text : string) : row :=
  {| row_id := hash_id text "docs@v1";
     row_vector := zero_vector;
     row_collection_name := "docs@v1";
     row_text := text;
     row_vmetadata := {| source := "a.txt"; product := "a.txt" |} |}.

(** ** Predicates of the further properties *)

(** The rows of a collection, as a list. *)
Definition collection_rows (collection : string) (t : table) : list row :=
  filter (fun r => row_collection_name r = collection) (map snd (map_to_list t)).

(** ** The schema *)

Definition SCHEMA_VERSION : Z := 1.

Inductive index_def : Type :=
  | BtreeIndex (column : string)
  | VectorIndex (ix : vector_index).

(** What [initialize_schema] looks at: the extensions, the versions in
    [rag_schema_version] and the rows of [document_chunk], each table when
    it exists, and the indexes by name. *)
Record database : Type := {
  db_extensions : gset string;
  db_versions : option (gset Z);
  db_chunks : option table;
  db_indexes : gmap string index_def
}.

(** The outcome of [initialize_schema]: the database it leaves, or the
    unique violation of an [INSERT] into [rag_schema_version], whose
    [version] is the primary key. *)
Inductive schema_outcome : Type :=
  | SchemaReady (db : database)
  | UniqueViolation.

(** [SELECT MAX(version) FROM rag_schema_version]: no value on an empty
    table. *)
Definition max_version (versions : gset Z) : option Z :=
  match elements versions with
  | [] => None
  | v :: vs => Some (foldr Z.max v vs)
  end.

(** [x or 0] *)
Definition or_zero (x : option Z) : Z :=
  match x with
  | None => 0
  | Some v => if v =? 0 then 0 else v
  end.

(** [_apply_migrations]: the version of the code is recorded. *)
Definition apply_migrations (from_version : Z) (versions : gset Z)
    : option (gset Z) :=
  if decide (SCHEMA_VERSION ∈ versions) then None
  else Some ({[SCHEMA_VERSION]} ∪ versions).

(** [CREATE INDEX IF NOT EXISTS name ..] *)
Definition create_index (name : string) (def : index_def)
    (indexes : gmap string index_def) : gmap string index_def :=
  match indexes !! name with
  | Some _ => indexes
  | None => <[name := def]> indexes
  end.

(** [DatabaseManager.initialize_schema] *)
Definition initialize_schema (db : database) : schema_outcome :=
  let extensions := {["vector"]} ∪ db_extensions db in
  let versions := default ∅ (db_versions db) in
  let current_version := or_zero (max_version versions) in
  let migrated :=
    if current_version <? SCHEMA_VERSION
    then apply_migrations current_version versions
    else Some versions in
  match migrated with
  | None => UniqueViolation
  | Some versions =>
      let chunks := default ∅ (db_chunks db) in
      let indexes :=
        create_index "idx_document_chunk_collection_name"
          (BtreeIndex "collection_name") (db_indexes db) in
      let indexes :=
        foldl (fun indexes ix => create_index (index_name ix) (VectorIndex ix) indexes)
          indexes initialize_schema_indexes in
      SchemaReady {| db_extensions := extensions;
                     db_versions := Some versions;
                     db_chunks := Some chunks;
                     db_indexes := indexes |}
  end.

(** The rows per collection: [COUNT] of the rows, [GROUP BY collection_name]. *)
Definition count_by_collection (rows : list row) : gmap string nat :=
  foldr (fun r counts =>
           <[row_collection_name r :=
               S (default 0%nat (counts !! row_collection_name r))]> counts)
        ∅ rows.

Definition by_name (collate : relation string) : relation (string * nat) :=
  fun a b => collate a.1 b.1.

#[global] Instance by_name_dec (collate : relation string)
    `{!RelDecision collate} : RelDecision (by_name collate).
Proof. intros a b. unfold by_name. apply _. Defined.

(** [list_collections] of the server: a pair [(collection, chunks)] per
    collection, [ORDER BY collection_name] under the collation [collate] of
    the database. *)
Definition list_collections (collate : relation string)
    `{!RelDecision collate} (store : table) : list (string * nat) :=
  merge_sort (by_name collate)
    (map_to_list (count_by_collection (map snd (map_to_list store)))).

(** ** The verification loop *)

(** The line feed of the strings printed. *)
Definition LF : string := String (Ascii.ascii_of_nat 10) "".

(** [s.lstrip()], [s.rstrip()] and [s.strip()] on white space *)
Fixpoint lstrip_space (s : string) : string :=
  match s with
  | EmptyString => ""
  | String c s' => if is_space c then lstrip_space s' else s
  end.

Fixpoint rstrip_space (s : string) : string :=
  match s with
  | EmptyString => ""
  | String c s' =>
      match rstrip_space s' with
      | EmptyString => if is_space c then "" else String c ""
      | r => String c r
      end
  end.

Definition strip (s : string) : string := lstrip_space (rstrip_space s).

(** [requests.post(".../api/completions",
     json={"model": .., "prompt": .., "temperature": .., "max_tokens": ..},
     timeout=120)] and its answer. *)
Record completion_request : Type := {
  completion_url : string;
  completion_model : string;
  completion_prompt : string;
  temperature : Q;
  max_tokens : Z
}.

Inductive completion_body : Type :=
  | NotJsonText
  | JsonObject (completion : option string).

Inductive completion_reply : Type :=
  | NoCompletion
  | Completion (status_code : Z) (content : completion_body).

(** The [try] block of [verify_rag]: the request, its status, the
    completion of its JSON. *)
Definition generate_summary (complete : completion_request -> completion_reply)
    (prompt : string) : result string :=
  match complete {| completion_url := "http://localhost:11434/api/completions";
                    completion_model := "llama3.1-rag";
                    completion_prompt := prompt;
                    temperature := 3 # 10;
                    max_tokens := 500 |} with
  | NoCompletion => Raise ConnectionError
  | Completion status_code content =>
      _ ← raise_for_status status_code;
      match content with
      | NotJsonText => Raise JSONDecodeError
      | JsonObject None => Raise KeyError
      | JsonObject (Some completion) => Ok (strip completion)
      end
  end.

(** How [verify_rag] ends: [input] finds no more line, the index [0] finds
    no vector, or an exception leaves the loop. *)
Inductive verify_end : Type :=
  | EndOfInput
  | IndexError
  | Raised (e : exn).

(** The loop of [verify_rag] on the lines [input] is yet to return; [n]
    counts the lines read and [printed] is what was written to the terminal
    so far, the prompts of [input] and the arguments of [print].  The [n]-th
    line is embedded over [net n] and summarised over [complete n];
    [request_exception] tells the subclasses of [requests.RequestException]
    and [message] is [str] of an exception. *)
Fixpoint verify_loop (net : nat -> network)
    (complete : nat -> completion_request -> completion_reply)
    (request_exception : exn -> bool) (message : exn -> string)
    (dist : metric -> vector -> vector -> Q)
    (db : connection) (embedder : Embedder) (collection : string) (top_k : Z)
    (n : nat) (lines : list string) (printed : list string)
    : list string * verify_end :=
  let printed := printed ++ ["> "] in
  match lines with
  | [] => (printed, EndOfInput)
  | line :: rest =>
      let continue := verify_loop net complete request_exception message dist
                        db embedder collection top_k (S n) rest in
      let query := strip line in
      if String.eqb query "" then continue printed
      else
        match embed (net n) embedder (Strs [query]) with
        | Raise e => (printed, Raised e)
        | Ok [] => (printed, IndexError)
        | Ok (vector :: _) =>
            match similarity_search dist db vector collection top_k with
            | Raise e => (printed, Raised e)
            | Ok [] =>
                continue (printed ++ ["No relevant documents found." +:+ LF])
            | Ok results =>
                let top_chunks := map (fun '(text, meta, dist) => text) results in
                let combined_text := join (LF +:+ LF) top_chunks in
                let prompt :=
                  "Provide a concise, readable executive summary of the following documents "
                  +:+ "(retain key details, ignore links and headers):"
                  +:+ LF +:+ LF +:+ combined_text in
                match generate_summary (complete n) prompt with
                | Ok summary =>
                    continue
                      (printed ++ [LF +:+ "--- EXECUTIVE SUMMARY ---" +:+ LF;
                                   summary;
                                   LF +:+ "-------------------------" +:+ LF])
                | Raise e =>
                    if request_exception e then
                      continue
                        (printed ++ ["Error generating summary: " +:+ message e
                                     +:+ LF])
                    else (printed, Raised e)
                end
            end
        end
  end.

(** [verify_rag(db, embedder, collection, top_k)] on the lines typed *)
Definition verify_rag (net : nat -> network)
    (complete : nat -> completion_request -> completion_reply)
    (request_exception : exn -> bool) (message : exn -> string)
    (dist : metric -> vector -> vector -> Q)
    (db : connection) (embedder : Embedder) (collection : string) (top_k : Z)
    (lines : list string) : list string * verify_end :=
  verify_loop net complete request_exception message dist
    db embedder collection top_k 0 lines
    [LF +:+ "Enter a query (Ctrl+C to exit):" +:+ LF].

(** ** More example data *)

(** A service whose second answer is an error. *)
Definition second_request_fails : network :=
  fun i _ =>
    if (i =? 1)%nat then Reply 503 NotJson
    else Reply 200 (Json (Some zero_vector)).

(** A row whose vector has one coordinate. *)
Definition short_row : row :=
  {| row_id := "short";
     row_vector := [1%Q];
     row_collection_name := "docs@v1";
     row_text := "short";
     row_vmetadata := {| source := "a.txt"; product := "a.txt" |} |}.

(** A vector of the dimension of the deployment, on the first axis. *)
Definition axis_vector (x : Q) : vector :=
  x :: replicate (EMBEDDING_DIM - 1)%nat 0%Q.

Definition axis_row (id collection : string) (x : Q) : row :=
  {| row_id := id;
     row_vector := axis_vector x;
     row_collection_name := collection;
     row_text := id;
     row_vmetadata := {| source := "a.txt"; product := "a.txt" |} |}.

(** Two rows of [docs@v1], at 1 and at 5 on the first axis, and one row of
    [notes@v1], at 2. *)
Definition three_rows : table :=
  <["near" := axis_row "near" "docs@v1" 1%Q]>
    (<["far" := axis_row "far" "docs@v1" 5%Q]>
       (<["other" := axis_row "other" "notes@v1" 2%Q]> ∅)).

(** A service that embeds every text at 2 on the first axis. *)
Definition axis_service : request -> reply :=
  fun _ => Reply 200 (Json (Some (axis_vector 2%Q))).

(** The square of the Euclidean distance, taken for every metric. *)
Definition square_distance (_ : metric) (a b : vector) : Q :=
  foldr Qplus 0%Q (zip_with (fun x y => (x - y) * (x - y))%Q a b).

(** * Properties *)

(** ** Strings: [split] and [join] *)

Lemma append_cons (c : ascii) (s r : string) :
  String c s +:+ r = String c (s +:+ r).
Proof. reflexivity. Qed.

Lemma append_nil_l (s : string) : "" +:+ s = s.
Proof. reflexivity. Qed.

Lemma append_nil_r (s : string) : s +:+ "" = s.
Proof.
  induction s as [| c s IH]; [reflexivity |].
  now rewrite append_cons, IH.
Qed.

Lemma append_assoc (a b c : string) : (a +:+ b) +:+ c = a +:+ (b +:+ c).
Proof.
  induction a as [| x a IH]; [reflexivity |].
  now rewrite !append_cons, IH.
Qed.

Lemma append_eq_nil (a b : string) : a +:+ b = "" -> a = "" /\ b = "".
Proof. destruct a; [auto | discriminate]. Qed.

Lemma no_space_append (a b : string) :
  no_space (a +:+ b) = no_space a && no_space b.
Proof.
  induction a as [| c a IH]; [reflexivity |].
  rewrite append_cons. simpl. rewrite IH. now rewrite andb_assoc.
Qed.

(** Reading a run without white space only extends the current word. *)
Lemma split_from_run (w : string) :
  forall cur rest, no_space w = true ->
    split_from cur (w +:+ rest) = split_from (cur +:+ w) rest.
Proof.
  induction w as [| c w IH]; intros cur rest Hw.
  - now rewrite append_nil_l, append_nil_r.
  - simpl in Hw. apply andb_prop in Hw as [Hc Hw].
    apply negb_true_iff in Hc.
    rewrite append_cons. simpl. rewrite Hc.
    rewrite IH by assumption. now rewrite append_assoc.
Qed.

Lemma split_from_words (s : string) :
  forall cur, no_space cur = true -> Forall word (split_from cur s).
Proof.
  induction s as [| c s IH]; intros cur Hcur; simpl.
  - destruct cur as [| x cur]; constructor; [| constructor].
    split; [discriminate | assumption].
  - destruct (is_space c) eqn:Hc.
    + destruct cur as [| x cur]; [now apply IH |].
      constructor; [split; [discriminate | assumption] | now apply IH].
    + apply IH. rewrite no_space_append, Hcur. simpl. now rewrite Hc.
Qed.

Lemma split_words (text : string) : Forall word (split text).
Proof. now apply split_from_words. Qed.

(** [" ".join(ws).split() == ws] for words [ws]. *)
Lemma split_join (ws : list string) :
  Forall word ws -> split (join " " ws) = ws.
Proof.
  unfold split. induction 1 as [| w ws [Hne Hw] Hws IH]; [reflexivity |].
  destruct ws as [| w' ws].
  - simpl. rewrite <- (append_nil_r w) at 1.
    rewrite split_from_run by assumption. rewrite append_nil_l. simpl.
    destruct w; [contradiction | reflexivity].
  - change (join " " (w :: w' :: ws))
      with (w +:+ String " " (join " " (w' :: ws))).
    rewrite split_from_run by assumption. rewrite append_nil_l.
    cbn [split_from]. change (is_space " ") with true. cbv iota.
    rewrite IH. destruct w; [contradiction | reflexivity].
Qed.

Lemma join_nonempty (ws : list string) :
  Forall word ws -> ws <> [] -> join " " ws <> "".
Proof.
  intros Hws Hne. destruct Hws as [| w ws [Hw _] _]; [contradiction |].
  destruct ws; simpl; [assumption |].
  intros [? _]%append_eq_nil. contradiction.
Qed.

(** ** Slices *)

Lemma py_slice_window {A : Type} (l : list A) (k : nat) (t : Z) :
  0 <= t ->
  py_slice l (Z.of_nat k) (Z.of_nat k + t) = take (Z.to_nat t) (drop k l).
Proof.
  intros Ht. unfold py_slice, slice_index.
  rewrite !(proj2 (Z.ltb_ge _ 0)) by lia.
  destruct (decide (length l <= k)%nat) as [Hk | Hk].
  - rewrite !drop_ge by lia. now rewrite !take_nil.
  - replace (Z.to_nat (Z.of_nat k `min` Z.of_nat (length l))) with k by lia.
    destruct (decide (Z.of_nat (length l) <= Z.of_nat k + t)) as [Ht' | Ht'].
    + rewrite !take_ge; [reflexivity | rewrite length_drop; lia ..].
    + f_equal. lia.
Qed.

(** ** The sliding window of [auto_chunk] *)

Lemma chunk_loop_exit (fuel : nat) (words : list string)
    (target_size overlap start : Z) (chunks : list string) :
  Z.of_nat (length words) <= start ->
  chunk_loop fuel words target_size overlap start chunks = Some chunks.
Proof.
  intros Hstart. destruct fuel; simpl;
    now rewrite (proj2 (Z.ltb_ge _ _)) by assumption.
Qed.

Lemma chunk_loop_step (fuel : nat) (words : list string)
    (target_size overlap start : Z) (chunks : list string) :
  start < Z.of_nat (length words) ->
  chunk_loop (S fuel) words target_size overlap start chunks =
  chunk_loop fuel words target_size overlap (start + target_size - overlap)
    (chunks ++ [join " " (py_slice words start (start + target_size))]).
Proof.
  intros Hstart. simpl. now rewrite (proj2 (Z.ltb_lt _ _)) by assumption.
Qed.

(** Without a positive advance the start never passes the end. *)
Lemma chunk_loop_stuck (words : list string) (target_size overlap : Z) :
  target_size <= overlap ->
  forall fuel start chunks,
    start < Z.of_nat (length words) ->
    chunk_loop fuel words target_size overlap start chunks = None.
Proof.
  intros Hstep. induction fuel as [| fuel IH]; intros start chunks Hstart.
  - simpl. now rewrite (proj2 (Z.ltb_lt _ _)) by assumption.
  - rewrite chunk_loop_step by assumption. apply IH. lia.
Qed.

Lemma chunk_loop_more_fuel (words : list string) (target_size overlap : Z) :
  forall fuel fuel' start chunks r,
    (fuel <= fuel')%nat ->
    chunk_loop fuel words target_size overlap start chunks = Some r ->
    chunk_loop fuel' words target_size overlap start chunks = Some r.
Proof.
  induction fuel as [| fuel IH]; intros fuel' start chunks r Hle Hrun;
    destruct (decide (start < Z.of_nat (length words))) as [Hlt | Hge].
  - simpl in Hrun. now rewrite (proj2 (Z.ltb_lt _ _)) in Hrun by assumption.
  - rewrite chunk_loop_exit in * by lia. assumption.
  - destruct fuel' as [| fuel']; [lia |].
    rewrite chunk_loop_step in * by assumption. apply IH; [lia | assumption].
  - rewrite chunk_loop_exit in * by lia. assumption.
Qed.

Section sliding_window.

Variable words : list string.
Hypothesis words_ok : Forall word words.

Variables target_size overlap : Z.
Hypothesis window_ok : 0 <= overlap < target_size.

Let T : nat := Z.to_nat target_size.
Let O : nat := Z.to_nat overlap.

Lemma window_words (k : nat) : Forall word (take T (drop k words)).
Proof. now apply Forall_take, Forall_drop. Qed.

Lemma window_split (k : nat) :
  split (join " " (take T (drop k words))) = take T (drop k words).
Proof. apply split_join, window_words. Qed.

Lemma window_nonempty (k : nat) :
  (k < length words)%nat -> join " " (take T (drop k words)) <> "".
Proof.
  intros Hk. apply join_nonempty; [apply window_words |].
  intros Hnil. apply (f_equal length) in Hnil.
  rewrite length_take, length_drop in Hnil. simpl in Hnil. subst T. lia.
Qed.

(** From the start [k] on, with enough fuel, the loop returns; the chunks
    it adds, each without its first [overlap] words, are the words from
    [k + overlap] on. *)
Lemma chunk_loop_covers (fuel : nat) :
  forall (k : nat) (chunks : list string),
    (length words - k <= fuel)%nat ->
    exists added,
      chunk_loop fuel words target_size overlap (Z.of_nat k) chunks
        = Some (chunks ++ added)
      /\ concat (map (fun c => drop O (split c)) added) = drop (k + O) words
      /\ Forall (fun c => c <> "") added.
Proof.
  induction fuel as [| fuel IH]; intros k chunks Hfuel.
  - exists []. rewrite chunk_loop_exit by lia.
    rewrite app_nil_r, drop_ge by lia. auto.
  - destruct (decide (length words <= k)%nat) as [Hk | Hk].
    + exists []. rewrite chunk_loop_exit by lia.
      rewrite app_nil_r, drop_ge by lia. auto.
    + rewrite chunk_loop_step by lia.
      rewrite py_slice_window by lia. fold T.
      replace (Z.of_nat k + target_size - overlap)
        with (Z.of_nat (k + (T - O))) by (subst T O; lia).
      destruct (IH (k + (T - O))%nat
                  (chunks ++ [join " " (take T (drop k words))]))
        as (added & Hrun & Hcover & Hne); [subst T O; lia |].
      exists (join " " (take T (drop k words)) :: added).
      rewrite Hrun, <- app_assoc. split; [reflexivity |]. split.
      * cbn [map concat]. rewrite Hcover, window_split.
        replace (k + (T - O) + O)%nat with (k + T)%nat by (subst T O; lia).
        rewrite <- !drop_drop.
        apply drop_take_drop. subst T O; lia.
      * constructor; [apply window_nonempty; lia | assumption].
Qed.

(** The whole loop, from the start 0. *)
Lemma chunk_loop_reconstructs :
  exists chunks,
    (forall fuel, (length words <= fuel)%nat ->
       chunk_loop fuel words target_size overlap 0 [] = Some chunks)
    /\ non_overlapping overlap chunks = words
    /\ Forall (fun c => c <> "") chunks
    /\ (words <> [] -> chunks <> []).
Proof.
  destruct (decide (length words = 0)%nat) as [Hlen | Hlen].
  - exists []. apply length_zero_iff_nil in Hlen. rewrite Hlen.
    repeat split; auto. intros fuel _. now apply chunk_loop_exit.
  - set (first := join " " (take T (drop 0 words))).
    destruct (chunk_loop_covers (length words - 1) (T - O) [first])
      as (added & Hrun & Hcover & Hne); [subst T O; lia |].
    exists (first :: added). split; [| split; [| split]].
    + intros fuel Hfuel.
      apply (chunk_loop_more_fuel _ _ _ (S (length words - 1)));
        [lia |].
      change 0 with (Z.of_nat 0%nat).
      rewrite chunk_loop_step by lia.
      rewrite py_slice_window by lia. fold T first.
      replace (Z.of_nat 0%nat + target_size - overlap)
        with (Z.of_nat (T - O)) by (subst T O; lia).
      exact Hrun.
    + unfold non_overlapping. fold O. rewrite Hcover. subst first.
      rewrite window_split.
      replace (T - O + O)%nat with T by (subst T O; lia).
      rewrite drop_0. apply take_drop.
    + constructor; [apply window_nonempty; lia | assumption].
    + discriminate.
Qed.

End sliding_window.

(** ** [auto_chunk] *)

(** With an effective overlap below the effective window, [auto_chunk]
    returns, its chunks cover the words in order, and none is empty. *)
Lemma auto_chunk_effective (text : string) (target_size overlap t o : Z) :
  adjust (Z.of_nat (length (split text))) target_size overlap = (t, o) ->
  0 <= o < t ->
  exists chunks,
    (forall fuel, (length (split text) <= fuel)%nat ->
       auto_chunk fuel text target_size overlap = Some chunks)
    /\ non_overlapping o chunks = split text
    /\ Forall (fun c => c <> "") chunks
    /\ (split text <> [] -> chunks <> []).
Proof.
  intros Hadjust Hwindow. unfold auto_chunk. rewrite Hadjust.
  apply chunk_loop_reconstructs; [apply split_words | assumption].
Qed.

(** The adjustment of a short document always leaves a positive advance. *)
Lemma adjust_short (n target_size overlap : Z) :
  0 <= n < target_size ->
  exists t o, adjust n target_size overlap = (t, o) /\ 0 <= o < t.
Proof.
  intros Hn. unfold adjust. rewrite (proj2 (Z.ltb_lt _ _)) by lia.
  eexists _, _. split; [reflexivity |].
  set (m := Z.max 50 (n / 2)). assert (50 <= m) as Hm by lia. clearbody m.
  pose proof (Z.div_lt_upper_bound m 10 m).
  pose proof (Z.div_pos m 10). lia.
Qed.

Lemma adjust_window (n target_size overlap : Z) :
  0 <= n ->
  0 <= overlap < target_size ->
  (5000 < n -> overlap < 2000) ->
  exists t o, adjust n target_size overlap = (t, o) /\ 0 <= o < t.
Proof.
  intros Hn Hwindow Hlong.
  destruct (decide (n < target_size)) as [Hshort | Hshort];
    [apply adjust_short; lia |].
  unfold adjust. rewrite (proj2 (Z.ltb_ge _ _)) by lia.
  destruct (5000 <? n) eqn:Hbig; eexists _, _; (split; [reflexivity |]).
  - apply Z.ltb_lt in Hbig. lia.
  - lia.
Qed.

Lemma long_text_words : Z.of_nat (length (split long_text)) = 5001.
Proof. vm_compute. reflexivity. Qed.

(** C4, as stated, fails: a text of 5001 words chunked with the window
    2001 and the overlap 2000 (below the window) has its window capped at
    2000, the start never advances and the loop does not return. *)
Lemma auto_chunk_capped_window_loops :
  2000 < 2001 /\ forall fuel, auto_chunk fuel long_text 2001 2000 = None.
Proof.
  split; [lia |]. intros fuel. unfold auto_chunk. cbv zeta.
  rewrite long_text_words.
  change (adjust 5001 2001 2000) with (2000, 2000).
  apply chunk_loop_stuck; [lia |]. rewrite long_text_words. lia.
Qed.

(** A negative overlap skips words: the word [c] is in no chunk. *)
Lemma auto_chunk_negative_overlap_skips :
  auto_chunk 4 "a b c d" 2 (-1) = Some ["a b"; "d"].
Proof. reflexivity. Qed.

(** C4 (amended): for every text and every window with
    [0 <= overlap < target_size], and [overlap < 2000] when the text has
    more than 5000 words, [auto_chunk] returns (with fuel for one iteration
    per word), and the first chunk followed by every later chunk without its
    first words of overlap, the overlap being the one in force after the
    adjustment, is the word sequence of the text. *)
Theorem auto_chunk_reconstructs (text : string) (target_size overlap : Z) :
  0 <= overlap < target_size ->
  (5000 < Z.of_nat (length (split text)) -> overlap < 2000) ->
  exists chunks,
    (forall fuel, (length (split text) <= fuel)%nat ->
       auto_chunk fuel text target_size overlap = Some chunks)
    /\ non_overlapping
         (snd (adjust (Z.of_nat (length (split text))) target_size overlap))
         chunks
       = split text.
Proof.
  intros Hwindow Hlong.
  destruct (adjust_window (Z.of_nat (length (split text))) target_size overlap)
    as (t & o & Hadjust & Hok); [lia | assumption | assumption |].
  destruct (auto_chunk_effective text target_size overlap t o Hadjust Hok)
    as (chunks & Hrun & Hcover & _).
  exists chunks. rewrite Hadjust. auto.
Qed.

Lemma auto_chunk_reconstructs_witness :
  exists chunks,
    (forall fuel, (length (split "a b c d e") <= fuel)%nat ->
       auto_chunk fuel "a b c d e" 2 1 = Some chunks)
    /\ non_overlapping
         (snd (adjust (Z.of_nat (length (split "a b c d e"))) 2 1)) chunks
       = split "a b c d e".
Proof.
  apply (auto_chunk_reconstructs "a b c d e" 2 1).
  - lia.
  - vm_compute. intros H. discriminate H.
Defined.

(** C5, as stated, fails: with three words, the window 2 and the overlap 2
    nothing is adjusted, no error is reported and the loop does not
    return. *)
Lemma auto_chunk_no_configuration_error :
  adjust (Z.of_nat (length (split "a b c"))) 2 2 = (2, 2)
  /\ forall fuel, auto_chunk fuel "a b c" 2 2 = None.
Proof.
  split; [reflexivity |]. intros fuel. unfold auto_chunk. cbv zeta.
  change (split "a b c") with ["a"; "b"; "c"].
  change (adjust _ 2 2) with (2, 2).
  apply chunk_loop_stuck; [lia | simpl; lia].
Qed.

(** C5 (amended): when the effective overlap is not below the effective
    window, [auto_chunk] reports no error: on a text without words it
    returns no chunk, and on any other text the loop returns for no amount
    of fuel. *)
Theorem auto_chunk_without_advance (text : string) (target_size overlap t o : Z) :
  adjust (Z.of_nat (length (split text))) target_size overlap = (t, o) ->
  t <= o ->
  (split text = [] ->
     forall fuel, auto_chunk fuel text target_size overlap = Some [])
  /\ (split text <> [] ->
        forall fuel, auto_chunk fuel text target_size overlap = None).
Proof.
  intros Hadjust Hstep. unfold auto_chunk. rewrite Hadjust. split.
  - intros Hnil fuel. rewrite Hnil. now apply chunk_loop_exit.
  - intros Hne fuel. apply chunk_loop_stuck; [assumption |].
    destruct (split text); [contradiction | simpl; lia].
Qed.

Lemma auto_chunk_without_advance_witness :
  (split "a b c" = [] ->
     forall fuel, auto_chunk fuel "a b c" 2 5 = Some [])
  /\ (split "a b c" <> [] ->
        forall fuel, auto_chunk fuel "a b c" 2 5 = None).
Proof.
  apply (auto_chunk_without_advance "a b c" 2 5 2 5).
  - reflexivity.
  - lia.
Defined.

(** C8, as stated, fails: a document of white space only has fewer words
    than the window and gets no chunk at all. *)
Lemma auto_chunk_blank_document :
  Z.of_nat (length (split "   ")) < DEFAULT_CHUNK_SIZE
  /\ forall fuel,
       auto_chunk fuel "   " DEFAULT_CHUNK_SIZE DEFAULT_OVERLAP = Some [].
Proof.
  split; [vm_compute; reflexivity |]. intros fuel. now destruct fuel.
Qed.

(** C8 (amended): for every document with at least one word and fewer
    words than [target_size], [auto_chunk] returns at least one chunk, and
    no chunk it returns is empty. *)
Theorem auto_chunk_short_document (text : string) (target_size overlap : Z) :
  split text <> [] ->
  Z.of_nat (length (split text)) < target_size ->
  exists chunk chunks,
    (forall fuel, (length (split text) <= fuel)%nat ->
       auto_chunk fuel text target_size overlap = Some (chunk :: chunks))
    /\ Forall (fun c => c <> "") (chunk :: chunks).
Proof.
  intros Hwords Hshort.
  destruct (adjust_short (Z.of_nat (length (split text))) target_size overlap)
    as (t & o & Hadjust & Hok); [lia |].
  destruct (auto_chunk_effective text target_size overlap t o Hadjust Hok)
    as (chunks & Hrun & _ & Hne & Hsome).
  destruct chunks as [| chunk chunks]; [now destruct (Hsome Hwords) |].
  exists chunk, chunks. auto.
Qed.

Lemma auto_chunk_short_document_witness :
  exists chunk chunks,
    (forall fuel, (length (split "alpha beta gamma") <= fuel)%nat ->
       auto_chunk fuel "alpha beta gamma" 800 120 = Some (chunk :: chunks))
    /\ Forall (fun c => c <> "") (chunk :: chunks).
Proof.
  apply (auto_chunk_short_document "alpha beta gamma" 800 120).
  - vm_compute. intros H. discriminate H.
  - vm_compute. reflexivity.
Defined.

(** ** The store: batches and transactions *)

Lemma insert_row_ok (r : row) (t : table) :
  document_chunk r ->
  insert_row r t = Ok (match t !! row_id r with
                       | Some _ => t
                       | None => <[row_id r := r]> t
                       end).
Proof.
  intros Hr. unfold insert_row. rewrite bool_decide_eq_true_2 by exact Hr.
  now destruct (t !! row_id r).
Qed.

Lemma insert_row_inv (r : row) (t t' : table) :
  insert_row r t = Ok t' ->
  document_chunk r /\ t ⊆ t' /\ is_Some (t' !! row_id r).
Proof.
  unfold insert_row. case_bool_decide as Hr; [| discriminate].
  destruct (t !! row_id r) as [r0 |] eqn:Hid; intros [= <-].
  - split; [exact Hr |]. split; [reflexivity | now exists r0].
  - split; [exact Hr |]. split.
    + now apply insert_subseteq.
    + exists r. apply lookup_insert_eq.
Qed.

(** A row whose id is taken is skipped. *)
Lemma insert_row_taken (r : row) (t : table) :
  document_chunk r -> is_Some (t !! row_id r) -> insert_row r t = Ok t.
Proof.
  intros Hr [r0 Hid]. rewrite insert_row_ok by exact Hr. now rewrite Hid.
Qed.

Lemma insert_all_inv (rows : list row) :
  forall t t',
    insert_all rows t = Ok t' ->
    t ⊆ t'
    /\ Forall (fun r => document_chunk r /\ is_Some (t' !! row_id r)) rows.
Proof.
  induction rows as [| r rows IH]; intros t t' Hrun; simpl in Hrun.
  - injection Hrun as <-. split; [reflexivity | constructor].
  - destruct (insert_row r t) as [t1 | e] eqn:Hrow; try discriminate.
    apply insert_row_inv in Hrow as (Hr & Hsub & Hid).
    apply IH in Hrun as [Hsub' Hall]. split; [now transitivity t1 |].
    constructor; [| exact Hall]. split; [exact Hr |].
    destruct Hid as [r0 Hid]. exists r0. now apply (lookup_weaken t1).
Qed.

(** A batch whose ids are all taken changes nothing. *)
Lemma insert_all_taken (rows : list row) (t : table) :
  Forall (fun r => document_chunk r /\ is_Some (t !! row_id r)) rows ->
  insert_all rows t = Ok t.
Proof.
  induction 1 as [| r rows [Hr Hid] _ IH]; [reflexivity |].
  simpl. now rewrite insert_row_taken.
Qed.

Lemma insert_all_ok (rows : list row) :
  forall t, Forall document_chunk rows -> exists t', insert_all rows t = Ok t'.
Proof.
  induction rows as [| r rows IH]; intros t Hrows; [now exists t |].
  apply Forall_cons in Hrows as [Hr Hrows].
  simpl. rewrite insert_row_ok by exact Hr. apply IH, Hrows.
Qed.

(** The statements of a page run inside the transaction: the committed
    rows stay as they were, whatever happens. *)
Lemma execute_insert_committed (r : row) (c : connection) :
  committed (snd (execute_insert r c)) = committed c.
Proof.
  unfold execute_insert.
  destruct (tx c); [| | reflexivity];
    now destruct (insert_row r _).
Qed.

Lemma execute_page_committed (page : list row) :
  forall c, committed (snd (execute_page page c)) = committed c.
Proof.
  induction page as [| r page IH]; intros c; [reflexivity |].
  simpl. pose proof (execute_insert_committed r c) as Hr.
  destruct (execute_insert r c) as [[[] | e] c1]; simpl in *;
    [now rewrite IH | assumption].
Qed.

(** A page on a transaction that is not aborted does what [insert_all]
    does on the table the transaction sees. *)
Lemma execute_page_spec (page : list row) :
  forall c, tx c <> Aborted ->
    match insert_all page (working c) with
    | Ok work' =>
        exists c', execute_page page c = (Ok tt, c')
                   /\ working c' = work' /\ tx c' <> Aborted
    | Raise e =>
        execute_page page c
        = (Raise e, {| committed := committed c; tx := Aborted |})
    end.
Proof.
  induction page as [| r page IH]; intros c Hc.
  - simpl. now exists c.
  - destruct c as [store [| work |]]; [| | contradiction];
      cbn [execute_page execute_insert insert_all working tx committed];
      (destruct (insert_row r _) as [w1 | e] eqn:Hrow; simpl;
       [| reflexivity]);
      (specialize (IH {| committed := store; tx := Active w1 |});
       simpl in IH; apply IH; discriminate).
Qed.

Lemma execute_page_aborted (page : list row) (c : connection) :
  tx c = Aborted -> page <> [] ->
  execute_page page c = (Raise InFailedSqlTransaction, c).
Proof.
  intros Hc Hpage. destruct page as [| r page]; [contradiction |].
  simpl. unfold execute_insert. now rewrite Hc.
Qed.

Lemma execute_page_app (p1 p2 : list row) :
  forall c,
    execute_page (p1 ++ p2) c =
    match execute_page p1 c with
    | (Ok _, c') => execute_page p2 c'
    | failure => failure
    end.
Proof.
  induction p1 as [| r p1 IH]; intros c; [reflexivity |].
  simpl. destruct (execute_insert r c) as [[[] | e] c1]; auto.
Qed.

Lemma execute_pages_concat (pages : list (list row)) :
  forall c, execute_pages pages c = execute_page (concat pages) c.
Proof.
  induction pages as [| page pages IH]; intros c; [reflexivity |].
  simpl. rewrite execute_page_app.
  destruct (execute_page page c) as [[[] | e] c1]; auto.
Qed.

Lemma paginate_concat {A : Type} (page_size : nat) :
  (0 < page_size)%nat ->
  forall (fuel : nat) (l : list A),
    (length l <= fuel)%nat -> concat (paginate fuel page_size l) = l.
Proof.
  intros Hsize. induction fuel as [| fuel IH]; intros l Hl.
  - destruct l; [reflexivity | simpl in Hl; lia].
  - destruct l as [| x l]; [reflexivity |].
    cbn [paginate concat]. rewrite IH; [apply take_drop |].
    rewrite length_drop. simpl in *. lia.
Qed.

(** The pages of a batch are its statements in order. *)
Lemma execute_batch_flat (rows : list row) (c : connection) :
  execute_batch rows 100 c = execute_page rows c.
Proof.
  unfold execute_batch. rewrite execute_pages_concat.
  rewrite paginate_concat; [reflexivity | lia | lia].
Qed.

(** [insert_chunks] on a transaction that is not aborted: the whole batch
    is committed, or the transaction is aborted and nothing is. *)
Lemma insert_chunks_spec (rows : list row) (c : connection) :
  tx c <> Aborted ->
  match insert_all rows (working c) with
  | Ok work' =>
      insert_chunks rows c = (Ok tt, {| committed := work'; tx := Idle |})
  | Raise e =>
      insert_chunks rows c
      = (Raise e, {| committed := committed c; tx := Aborted |})
  end.
Proof.
  intros Hc. unfold insert_chunks. rewrite execute_batch_flat.
  pose proof (execute_page_spec rows c Hc) as Hpage.
  destruct (insert_all rows (working c)) as [work' | e].
  - destruct Hpage as (c' & -> & Hwork & Hc'). f_equal.
    destruct c' as [store [| work |]]; simpl in *; now subst.
  - now rewrite Hpage.
Qed.

Lemma insert_chunks_aborted (rows : list row) (c : connection) :
  tx c = Aborted ->
  insert_chunks rows c
  = match rows with
    | [] => (Ok tt, {| committed := committed c; tx := Idle |})
    | _ :: _ => (Raise InFailedSqlTransaction, c)
    end.
Proof.
  intros Hc. unfold insert_chunks. rewrite execute_batch_flat.
  destruct rows as [| r rows].
  - simpl. unfold commit. now rewrite Hc.
  - now rewrite execute_page_aborted.
Qed.

Lemma insert_all_again (rows : list row) (t t' : table) :
  insert_all rows t = Ok t' -> insert_all rows t' = Ok t'.
Proof.
  intros [_ Hall]%insert_all_inv. now apply insert_all_taken.
Qed.

(** A second run of the same batch, by a new connection, leaves the store
    as the first run left it. *)
Lemma insert_chunks_rerun (rows : list row) (store : table) :
  committed (snd (insert_chunks rows
                    (connect (committed
                                (snd (insert_chunks rows (connect store)))))))
  = committed (snd (insert_chunks rows (connect store))).
Proof.
  pose proof (insert_chunks_spec rows (connect store)) as Hfirst.
  change (working (connect store)) with store in Hfirst.
  destruct (insert_all rows store) as [work' | e] eqn:Hall.
  - rewrite Hfirst by discriminate. simpl.
    pose proof (insert_chunks_spec rows (connect work')) as Hsecond.
    change (working (connect work')) with work' in Hsecond.
    rewrite (insert_all_again _ _ _ Hall) in Hsecond.
    now rewrite Hsecond by discriminate.
  - rewrite Hfirst by discriminate. simpl.
    now rewrite Hfirst by discriminate.
Qed.

(** C9: [insert_chunks] is atomic per batch.  Whatever number of statements
    of the batch has run when the process stops, the committed rows are
    those from before the call; and when the call ends, either it returned
    and the committed table is the one the whole batch leads to, every row
    of the batch having its id in it, or it raised and the committed table
    is unchanged. *)
Theorem insert_chunks_atomic (rows : list row) (c : connection) :
  (forall n, crash (snd (execute_batch (take n rows) 100 c)) = committed c)
  /\ match fst (insert_chunks rows c) with
     | Ok _ =>
         insert_all rows (working c)
           = Ok (committed (snd (insert_chunks rows c)))
         /\ Forall (fun r => is_Some (committed (snd (insert_chunks rows c))
                                        !! row_id r)) rows
     | _ => committed (snd (insert_chunks rows c)) = committed c
     end.
Proof.
  split.
  - intros n. unfold crash. rewrite execute_batch_flat.
    apply execute_page_committed.
  - assert (tx c = Aborted \/ tx c <> Aborted) as [Hc | Hc]
      by (destruct (tx c); auto; right; discriminate).
    + rewrite insert_chunks_aborted by assumption.
      destruct rows as [| r rows]; simpl; [| reflexivity].
      unfold working. rewrite Hc. auto.
    + pose proof (insert_chunks_spec rows c Hc) as Hrun.
      destruct (insert_all rows (working c)) as [work' | e] eqn:Hall;
        [| now rewrite Hrun].
      rewrite Hrun. simpl. split; [reflexivity |].
      apply insert_all_inv in Hall as [_ Hall].
      eapply Forall_impl; [exact Hall |]. now intros r [_ Hid].
Qed.

(** ** Ingestion *)

Lemma split_from_length (s : string) :
  forall cur,
    (length (split_from cur s)
     <= String.length s + match cur with EmptyString => 0 | _ => 1 end)%nat.
Proof.
  induction s as [| c s IH]; intros cur; simpl.
  - destruct cur; simpl; lia.
  - destruct (is_space c).
    + specialize (IH ""). destruct cur; simpl in *; lia.
    + specialize (IH (cur +:+ String c "")).
      destruct (cur +:+ String c "") eqn:Hcur.
      * apply append_eq_nil in Hcur as [_ Hc]. discriminate Hc.
      * destruct cur; simpl in *; lia.
Qed.

Lemma split_length (text : string) :
  (length (split text) <= String.length text)%nat.
Proof. pose proof (split_from_length text ""). simpl in *. unfold split. lia. Qed.

(** With the default window the chunker always returns. *)
Lemma auto_chunk_default (text : string) :
  exists chunks,
    auto_chunk (String.length text) text DEFAULT_CHUNK_SIZE DEFAULT_OVERLAP
    = Some chunks.
Proof.
  destruct (adjust_window (Z.of_nat (length (split text)))
              DEFAULT_CHUNK_SIZE DEFAULT_OVERLAP)
    as (t & o & Hadjust & Hok);
    [lia | unfold DEFAULT_CHUNK_SIZE, DEFAULT_OVERLAP; lia
     | unfold DEFAULT_OVERLAP; lia |].
  destruct (auto_chunk_effective _ _ _ _ _ Hadjust Hok) as (chunks & Hrun & _).
  exists chunks. apply Hrun, split_length.
Qed.

Section pool.

Variable fs : filesystem.
Variable submit : list string -> string -> future.

Lemma submit_all_total (files : list string) :
  forall futures, exists r, submit_all fs submit files futures = Some r.
Proof.
  induction files as [| file files IH]; intros futures; simpl; [eauto |].
  destruct (read_text fs file) as [text | e]; [| eauto].
  destruct (auto_chunk_default text) as [chunks ->]. apply IH.
Qed.

Lemma submit_all_ok (files : list string) :
  forall futures all,
    submit_all fs submit files futures = Some (Ok all) ->
    exists new, all = futures ++ new /\ Forall2 (submitted fs submit) files new.
Proof.
  induction files as [| file files IH]; intros futures all Hrun;
    simpl in Hrun.
  - injection Hrun as <-. exists []. now rewrite app_nil_r.
  - destruct (read_text fs file) as [text | e] eqn:Hread; [| discriminate].
    destruct (auto_chunk _ text _ _) as [chunks |] eqn:Hchunks;
      [| discriminate].
    apply IH in Hrun as (new & -> & Hnew).
    exists (submit chunks file :: new). rewrite <- app_assoc.
    split; [reflexivity |]. constructor; [| exact Hnew].
    now exists text, chunks.
Qed.

End pool.

Lemma gather_raise (completed : list future) :
  forall rows e,
    Raise e ∈ completed -> exists e', gather completed rows = Raise e'.
Proof.
  induction completed as [| fut completed IH]; intros rows e Hin.
  - now apply elem_of_nil in Hin.
  - simpl. destruct fut as [produced | e0]; simpl; [| eauto].
    apply elem_of_cons in Hin as [Heq | Hin]; [discriminate | eauto].
Qed.

Lemma gather_ok (completed : list future) :
  forall rows produced,
    Forall2 (fun fut rs => fut = Ok rs) completed produced ->
    gather completed rows = Ok (rows ++ concat produced).
Proof.
  induction completed as [| fut completed IH]; intros rows produced Hall;
    inversion Hall as [| ? rs ? rss Hfut Hrest]; subst; simpl.
  - now rewrite app_nil_r.
  - rewrite (IH _ rss Hrest). now rewrite app_assoc.
Qed.

Section ingest.

Variable task : Embedder -> list string -> string -> string -> string -> future.
Variable fs : filesystem.
Variable as_completed : list future -> list future.
Variable embedder : Embedder.
Variables folder collection : string.

Lemma ingest_rows_total :
  exists r, ingest_rows task fs as_completed embedder folder collection = Some r.
Proof.
  unfold ingest_rows.
  destruct (submit_all_total fs
              (fun chunks file => task embedder chunks file collection folder)
              (list_files fs folder) []) as [[futures | e] ->]; eauto.
Qed.

(** The rows do not depend on the connection: a run either stops before
    [insert_chunks] or is one call of it. *)
Lemma ingest_folder_with_cases (db : connection) :
  (exists e,
     ingest_rows task fs as_completed embedder folder collection
       = Some (Raise e)
     /\ ingest_folder_with task fs as_completed db embedder folder collection
        = Some (Raise e, db))
  \/ (exists rows,
        ingest_rows task fs as_completed embedder folder collection
          = Some (Ok rows)
        /\ ingest_folder_with task fs as_completed db embedder folder collection
           = Some (insert_chunks rows db)).
Proof.
  unfold ingest_folder_with.
  destruct ingest_rows_total as [[rows | e] ->]; eauto.
Qed.

End ingest.

(** The task as submitted never runs: five arguments for four parameters. *)
Lemma submitted_task_raises (fs : filesystem) (net : string -> network)
    (embedder : Embedder) (chunks : list string)
    (file collection folder : string) :
  submitted_task fs net embedder chunks file collection folder = Raise TypeError.
Proof. reflexivity. Qed.

(** C2 (code): of the two files of a folder, the service answers the chunk
    of [docs/a.txt] with an error and the chunk of [docs/b.txt] with an
    embedding.  No task gets as far as a request: each is called with five
    arguments and raises [TypeError], the task of [docs/b.txt] as well.  The
    run raises with it: it returns no report, and the store stays empty, so
    the rows of [docs/b.txt] are not committed. *)
Theorem ingest_folder_one_failure_raises :
  list_files two_files "docs" = ["docs/a.txt"; "docs/b.txt"]
  /\ embed (one_bad_service "docs/a.txt") default_embedder
       (Strs ["alpha beta gamma"]) = Raise HTTPError
  /\ embed (one_bad_service "docs/b.txt") default_embedder
       (Strs ["delta epsilon"]) = Ok [zero_vector]
  /\ submitted_task two_files one_bad_service default_embedder
       ["delta epsilon"] "docs/b.txt" "docs@v1" "docs" = Raise TypeError
  /\ ingest_folder two_files one_bad_service id
       (connect ∅) default_embedder "docs" "docs@v1"
     = Some (Raise TypeError, connect ∅).
Proof. vm_compute. repeat split. Qed.

(** ** Idempotent insertion *)

(** A second run of the same ingestion leaves the store as the first run
    left it. *)
Lemma ingest_folder_with_rerun
    (task : Embedder -> list string -> string -> string -> string -> future)
    (fs : filesystem) (as_completed : list future -> list future)
    (embedder : Embedder) (folder collection : string) (store : table) :
  exists once twice,
    ingest_folder_with task fs as_completed (connect store)
      embedder folder collection = Some once
    /\ ingest_folder_with task fs as_completed (connect (committed (snd once)))
         embedder folder collection = Some twice
    /\ committed (snd twice) = committed (snd once).
Proof.
  destruct (ingest_folder_with_cases task fs as_completed embedder
              folder collection (connect store))
    as [(e & Hrows & Hrun) | (rows & Hrows & Hrun)];
    rewrite Hrun; unfold ingest_folder_with; rewrite Hrows;
    eexists _, _; (split; [reflexivity |]); (split; [reflexivity |]).
  - reflexivity.
  - apply insert_chunks_rerun.
Qed.

(** C1: inserting is idempotent on ids.  For a batch of [DocumentChunk]
    rows, neither the first nor a second insertion raises; the rows the
    store held keep their values, so a row whose id is taken is skipped; a
    batch whose ids are all taken leaves the store as it was; the second
    insertion of the batch changes nothing, and so leaves the row count of
    the first.  The same holds for two runs of an ingestion. *)
Theorem insert_chunks_idempotent (store : table) (rows : list row) :
  Forall document_chunk rows ->
  let once := insert_chunks rows (connect store) in
  let twice := insert_chunks rows (snd once) in
  fst once = Ok tt /\ fst twice = Ok tt
  /\ (forall i r, store !! i = Some r -> committed (snd once) !! i = Some r)
  /\ (Forall (fun r => is_Some (store !! row_id r)) rows ->
      committed (snd once) = store)
  /\ committed (snd twice) = committed (snd once)
  /\ size (committed (snd twice)) = size (committed (snd once))
  /\ (forall task fs as_completed embedder folder collection,
        exists first second,
          ingest_folder_with task fs as_completed (connect store)
            embedder folder collection = Some first
          /\ ingest_folder_with task fs as_completed
               (connect (committed (snd first)))
               embedder folder collection = Some second
          /\ size (committed (snd second)) = size (committed (snd first))).
Proof.
  intros Hrows once twice.
  destruct (insert_all_ok rows store Hrows) as [work' Hall].
  pose proof (insert_chunks_spec rows (connect store)) as Hfirst.
  change (working (connect store)) with store in Hfirst.
  rewrite Hall in Hfirst. specialize (Hfirst ltac:(discriminate)).
  pose proof (insert_chunks_spec rows (connect work')) as Hsecond.
  change (working (connect work')) with work' in Hsecond.
  rewrite (insert_all_again _ _ _ Hall) in Hsecond.
  specialize (Hsecond ltac:(discriminate)).
  assert (twice = (Ok tt, connect work')) as Htwice
    by (subst twice once; rewrite Hfirst; exact Hsecond).
  subst once. rewrite Htwice, Hfirst. simpl.
  repeat split.
  - intros i r Hi. apply insert_all_inv in Hall as [Hsub _].
    now apply (lookup_weaken store).
  - intros Htaken. 
    assert (insert_all rows store = Ok store) as Hsame.
    { apply insert_all_taken. apply Forall_and. split; assumption. }
    congruence.
  - intros task fs as_completed embedder folder collection.
    destruct (ingest_folder_with_rerun task fs as_completed embedder
                folder collection store) as (first & second & H1 & H2 & H3).
    exists first, second. now rewrite H3.
Qed.

Lemma insert_chunks_idempotent_witness :
  let rows := [example_row "alpha"; example_row "beta"; example_row "alpha"] in
  let once := insert_chunks rows (connect ∅) in
  let twice := insert_chunks rows (snd once) in
  size (committed (snd twice)) = size (committed (snd once))
  /\ size (committed (snd once)) = 2%nat.
Proof.
  intros rows once twice. split.
  - apply (insert_chunks_idempotent ∅ rows).
    repeat constructor.
  - vm_compute. reflexivity.
Defined.

(** ** The embedder *)

(** C10: [embed] takes a single string for the list of that one string.
    Both calls have the same outcome, and it is set by what the service
    answers to the one request they send, the request for the embedding of
    [s] by the model of the embedder at its base URL: when the answer holds
    an embedding, the call returns the list of that one vector; when there
    is no answer, an error status, a body that is not JSON or a body without
    an embedding, it raises the exception of that failure. *)
Theorem embed_single_string (net : network) (self : Embedder) (s : string) :
  embed net self (Str s) = embed net self (Strs [s])
  /\ embed net self (Str s)
     = match net 0%nat {| url := base_url self +:+ "/api/embeddings";
                          request_model := model self;
                          prompt := s |} with
       | NoReply => Raise ConnectionError
       | Reply status_code content =>
           if (400 <=? status_code) && (status_code <? 600)
           then Raise HTTPError
           else match content with
                | NotJson => Raise JSONDecodeError
                | Json None => Raise KeyError
                | Json (Some v) => Ok [v]
                end
       end.
Proof.
  split; [reflexivity |].
  unfold embed. simpl. unfold embed_one, raise_for_status.
  destruct (net 0%nat _) as [| status_code content]; [reflexivity |].
  destruct ((400 <=? status_code) && (status_code <? 600)); [reflexivity |].
  now destruct content as [| [v |]].
Qed.

(** [embed] returns one vector per text, in order. *)
Lemma embed_loop_length (net : network) (self : Embedder) (texts : list string) :
  forall i vectors result,
    embed_loop net self i texts vectors = Ok result ->
    length result = (length vectors + length texts)%nat.
Proof.
  induction texts as [| text texts IH]; intros i vectors result Hrun;
    simpl in Hrun.
  - injection Hrun as <-. simpl. lia.
  - destruct (embed_one (net i) self text) as [v | e]; [| discriminate].
    simpl in Hrun. apply IH in Hrun. rewrite length_app in Hrun.
    simpl in *. lia.
Qed.

(** ** Search *)

#[local] Instance closer_transitive : Transitive closer.
Proof. intros a b c. unfold closer. apply Qle_trans. Qed.

#[local] Instance closer_total : Total closer.
Proof.
  intros a b. unfold closer.
  destruct (Qlt_le_dec (distance b) (distance a)) as [H | H]; [right | left].
  - now apply Qlt_le_weak.
  - exact H.
Qed.

Lemma StronglySorted_take {A : Type} (R : relation A) (l : list A) :
  forall n, StronglySorted R l -> StronglySorted R (take n l).
Proof.
  induction l as [| x l IH]; intros [| n] Hl; simpl; try constructor.
  - apply IH. now inversion Hl.
  - inversion Hl as [| ? ? _ Hx]; subst.
    apply Forall_forall. intros y Hy%elem_of_take.
    destruct Hy as (i & Hy & _). rewrite Forall_forall in Hx.
    apply Hx. apply list_elem_of_lookup. eauto.
Qed.

Lemma StronglySorted_app_le {A : Type} (R : relation A) (l1 l2 : list A) :
  StronglySorted R (l1 ++ l2) ->
  forall x y, x ∈ l1 -> y ∈ l2 -> R x y.
Proof.
  induction l1 as [| a l1 IH]; intros Hsorted x y Hx Hy.
  - now apply elem_of_nil in Hx.
  - simpl in Hsorted. inversion Hsorted as [| ? ? Hrest Hall]; subst.
    apply elem_of_cons in Hx as [-> | Hx].
    + rewrite Forall_forall in Hall. apply Hall, elem_of_app. now right.
    + now apply IH.
Qed.

(** The [k] closest of the rows scored, the others being at least as far. *)
Lemma scored_top (dist : metric -> vector -> vector -> Q) (m : metric)
    (query_vector : vector) (rows : list row) (k : nat) :
  let hits :=
    merge_sort closer
      (map (fun r => {| hit_row := r;
                        distance := dist m (row_vector r) query_vector |})
           rows) in
  length (take k hits) = (k `min` length rows)%nat
  /\ StronglySorted closer (take k hits)
  /\ hit_row <$> (take k hits ++ drop k hits) ≡ₚ rows
  /\ (forall h, h ∈ hits ->
        distance h = dist m (row_vector (hit_row h)) query_vector)
  /\ (forall h h', h ∈ take k hits -> h' ∈ drop k hits -> closer h h').
Proof.
  intros hits.
  assert (StronglySorted closer hits) as Hsorted
    by (apply StronglySorted_merge_sort; apply _).
  assert (hits ≡ₚ map (fun r => {| hit_row := r;
                                   distance := dist m (row_vector r)
                                                 query_vector |}) rows)
    as Hperm by apply merge_sort_Permutation.
  split; [| split; [| split; [| split]]].
  - rewrite length_take. rewrite Hperm, length_map. lia.
  - now apply StronglySorted_take.
  - rewrite take_drop, Hperm. rewrite <- list_fmap_compose.
    now rewrite list_fmap_id.
  - intros h Hh. rewrite Hperm in Hh.
    now apply list_elem_of_fmap in Hh as (r & -> & _).
  - apply StronglySorted_app_le. now rewrite take_drop.
Qed.

(** No index of [initialize_schema] orders by the operator of the
    statement of [search_documents]: its answer is exact. *)
Lemma index_served_l2 : index_served op_l2 = false.
Proof. reflexivity. Qed.

(** The answer to the statement of [search_documents], once the collection
    and the limit are bound.  The vector written into it has from 1 to
    [VECTOR_MAX_DIM] coordinates, as many as the vectors of the rows of the
    collection, and the limit is a [bigint] that is not negative; then the
    answer is the [limit] closest rows of the collection, closest first. *)
Lemma run_select_top (dist : metric -> vector -> vector -> Q)
    (visited : row -> bool)
    (query_vector : vector) (collection : string) (limit : Z) (t : table) :
  (0 < length query_vector)%nat ->
  Z.of_nat (length query_vector) <= VECTOR_MAX_DIM ->
  0 <= limit < 2 ^ 63 ->
  Forall (fun r => length (row_vector r) = length query_vector)
    (collection_rows collection t) ->
  exists hits others,
    run_select dist visited (similarity_statement query_vector)
      [SText collection; SInt limit] t = Ok hits
    /\ length hits
       = (Z.to_nat limit `min` length (collection_rows collection t))%nat
    /\ StronglySorted closer hits
    /\ hit_row <$> (hits ++ others) ≡ₚ collection_rows collection t
    /\ (forall h, h ∈ hits ++ others ->
          distance h = dist Euclidean (row_vector (hit_row h)) query_vector)
    /\ (forall h h', h ∈ hits -> h' ∈ others -> closer h h').
Proof.
  intros Hdim Hmax Hlimit Hrows.
  destruct (scored_top dist Euclidean query_vector
              (collection_rows collection t) (Z.to_nat limit))
    as (Hlen & Hsorted & Hperm & Hdist & Hfar).
  eexists _, _.
  split; [| split; [exact Hlen | split; [exact Hsorted | split;
    [exact Hperm | split; [| exact Hfar]]]]].
  2: { intros h Hh. apply Hdist. now rewrite take_drop in Hh. }
  unfold run_select.
  cbn [similarity_statement select_query where_collection_name
       select_operator operator_metric].
  rewrite index_served_l2.
  assert (filter (fun r => String.eqb (row_collection_name r) collection = true)
            (map snd (map_to_list t))
          = collection_rows collection t) as ->.
  { unfold collection_rows. apply list_filter_iff.
    intros r. apply String.eqb_eq. }
  destruct (Z.eqb_spec (Z.of_nat (length query_vector)) 0) as [| _]; [lia |].
  destruct (Z.ltb_spec VECTOR_MAX_DIM (Z.of_nat (length query_vector)))
    as [| _]; [lia |].
  destruct (Z.ltb_spec limit 0) as [| _]; [lia |].
  destruct (Z.leb_spec (2 ^ 63) limit) as [| _]; [lia |].
  cbn [orb].
  destruct (Z.eqb_spec limit 0) as [-> | _]; [reflexivity |].
  assert (forallb (fun r => Z.of_nat (length (row_vector r))
                            =? Z.of_nat (length query_vector))
            (collection_rows collection t) = true) as ->; [| reflexivity].
  apply forallb_forall. intros r Hr%list_elem_of_In.
  rewrite Forall_forall in Hrows. apply Z.eqb_eq. f_equal. now apply Hrows.
Qed.

(** What the server refuses: a limit that is negative or no [bigint], and,
    with a positive limit, a row of the collection whose vector has another
    dimension than the query vector. *)
Lemma run_select_rejects (dist : metric -> vector -> vector -> Q)
    (visited : row -> bool)
    (query_vector : vector) (collection : string) (limit : Z) (t : table) :
  (0 < length query_vector)%nat ->
  Z.of_nat (length query_vector) <= VECTOR_MAX_DIM ->
  limit < 0 \/ 2 ^ 63 <= limit
  \/ (0 < limit
      /\ exists r, r ∈ collection_rows collection t
                   /\ length (row_vector r) <> length query_vector) ->
  run_select dist visited (similarity_statement query_vector)
    [SText collection; SInt limit] t = Raise DataError.
Proof.
  intros Hdim Hmax Hbad. unfold run_select.
  cbn [similarity_statement select_query where_collection_name
       select_operator operator_metric].
  rewrite index_served_l2.
  assert (filter (fun r => String.eqb (row_collection_name r) collection = true)
            (map snd (map_to_list t))
          = collection_rows collection t) as ->.
  { unfold collection_rows. apply list_filter_iff.
    intros r. apply String.eqb_eq. }
  destruct (Z.eqb_spec (Z.of_nat (length query_vector)) 0) as [| _]; [lia |].
  destruct (Z.ltb_spec VECTOR_MAX_DIM (Z.of_nat (length query_vector)))
    as [| _]; [lia |].
  destruct (Z.ltb_spec limit 0) as [| Hneg]; [reflexivity |].
  destruct (Z.leb_spec (2 ^ 63) limit) as [| Hbig]; [reflexivity |].
  cbn [orb].
  destruct Hbad as [| [| (Hpos & r & Hr & Hlen)]]; [lia | lia |].
  destruct (Z.eqb_spec limit 0) as [| _]; [lia |].
  destruct (forallb _ _) eqn:Hall; [| reflexivity].
  rewrite forallb_forall in Hall.
  specialize (Hall r ltac:(now apply list_elem_of_In)).
  apply Z.eqb_eq in Hall. lia.
Qed.

(** The server path: [search_documents] binds two arguments to the two
    placeholders and returns what the statement answers: at most [limit]
    rows, all of the collection, closest first. *)
Lemma search_documents_nearest (post : request -> reply)
    (dist : metric -> vector -> vector -> Q) (store : table)
    (query collection : string) (limit : Z) (query_vector : vector) :
  get_embedding post query = Ok query_vector ->
  (0 < length query_vector)%nat ->
  Z.of_nat (length query_vector) <= VECTOR_MAX_DIM ->
  0 <= limit < 2 ^ 63 ->
  Forall (fun r => length (row_vector r) = length query_vector)
    (collection_rows collection store) ->
  exists hits,
    search_documents post dist store query collection limit
    = Ok (map (fun h => (row_text (hit_row h), row_vmetadata (hit_row h),
                         distance h)) hits)
    /\ Z.of_nat (length hits) <= limit
    /\ Forall (fun h => row_collection_name (hit_row h) = collection) hits
    /\ StronglySorted closer hits.
Proof.
  intros Hquery Hdim Hmax Hlimit Hrows.
  unfold search_documents. rewrite Hquery. simpl.
  destruct (run_select_top dist (fun _ => true) query_vector collection limit
              store Hdim Hmax Hlimit Hrows)
    as (hits & others & Hrun & Hlen & Hsorted & Hperm & _).
  exists hits. unfold execute_select. simpl. rewrite Hrun.
  split; [reflexivity |]. split; [lia |]. split; [| exact Hsorted].
  apply Forall_forall. intros h Hh.
  assert (hit_row h ∈ collection_rows collection store) as Hin.
  { rewrite <- Hperm. apply list_elem_of_fmap. exists h. split; [reflexivity |].
    apply elem_of_app. now left. }
  unfold collection_rows in Hin. now apply list_elem_of_filter in Hin as [Hc _].
Qed.

(** C3 (code): [DatabaseManager.similarity_search] passes three arguments,
    the vector, the collection and the limit, to a statement with two
    placeholders; the merge of the arguments fails and the call raises
    [TypeError] for every vector, collection and limit. *)
Theorem similarity_search_raises (dist : metric -> vector -> vector -> Q)
    (c : connection) (query_vector : vector) (collection : string) (limit : Z) :
  placeholders (similarity_statement query_vector) = 2%nat
  /\ similarity_search dist c query_vector collection limit = Raise TypeError.
Proof. split; reflexivity. Qed.

(** C7 (code): the statement of [similarity_search] and of
    [search_documents] orders by the Euclidean operator, while both indexes
    of [initialize_schema] are built for the cosine metric, which is also
    the metric of the query of [check_db.py]. *)
Theorem search_metric_differs_from_index (query_vector : vector) :
  operator_metric (select_operator (similarity_statement query_vector))
    = Euclidean
  /\ Forall (fun ix => opclass_metric (ops ix) = Cosine)
       initialize_schema_indexes
  /\ operator_metric (select_operator (check_db_statement query_vector))
     = Cosine
  /\ Forall (fun ix =>
               opclass_metric (ops ix)
               <> operator_metric
                    (select_operator (similarity_statement query_vector)))
       initialize_schema_indexes.
Proof.
  split; [reflexivity |]. split; [repeat constructor |].
  split; [reflexivity |]. repeat constructor; discriminate.
Qed.

(** ** Content identity *)

Lemma code_point_bound (c : ascii) :
  0 <= Z.of_nat (Ascii.nat_of_ascii c) < 256.
Proof. pose proof (nat_ascii_bounded c). lia. Qed.

Lemma code_point_inj (c c' : ascii) :
  Z.of_nat (Ascii.nat_of_ascii c) = Z.of_nat (Ascii.nat_of_ascii c') -> c = c'.
Proof.
  intros H%Nat2Z.inj. rewrite <- (ascii_nat_embedding c), H.
  apply ascii_nat_embedding.
Qed.

(** UTF-8 is a prefix code: the bytes of a character tell it apart. *)
Lemma encode_char_app_inj (c c' : ascii) (l l' : list Z) :
  encode_char c ++ l = encode_char c' ++ l' -> c = c' /\ l = l'.
Proof.
  unfold encode_char.
  pose proof (code_point_bound c) as Hn. pose proof (code_point_bound c') as Hn'.
  set (n := Z.of_nat (Ascii.nat_of_ascii c)) in *.
  set (n' := Z.of_nat (Ascii.nat_of_ascii c')) in *.
  pose proof (Z.div_mod n 64 ltac:(lia)) as Hdiv.
  pose proof (Z.div_mod n' 64 ltac:(lia)) as Hdiv'.
  pose proof (Z.div_pos n 64 ltac:(lia) ltac:(lia)) as Hq.
  pose proof (Z.div_pos n' 64 ltac:(lia) ltac:(lia)) as Hq'.
  set (q := n / 64) in *. set (q' := n' / 64) in *.
  set (m := n mod 64) in *. set (m' := n' mod 64) in *.
  destruct (n <? 128) eqn:Hs; destruct (n' <? 128) eqn:Hs'; simpl.
  - intros [= H1 H2]. split; [| assumption]. now apply code_point_inj.
  - intros [= H1 H2]. apply Z.ltb_lt in Hs. lia.
  - intros [= H1 H2]. apply Z.ltb_lt in Hs'. lia.
  - intros [= H1 H2 H3]. split; [| assumption].
    apply code_point_inj. fold n n'. lia.
Qed.

Lemma encode_inj (s : string) : forall s', encode s = encode s' -> s = s'.
Proof.
  induction s as [| c s IH]; intros [| c' s'] Heq; simpl in Heq.
  - reflexivity.
  - unfold encode_char in Heq.
    destruct (_ <? 128) in Heq; discriminate Heq.
  - unfold encode_char in Heq.
    destruct (_ <? 128) in Heq; discriminate Heq.
  - apply encode_char_app_inj in Heq as [-> Heq]. f_equal. now apply IH.
Qed.

Lemma append_inj_l (c x y : string) : c +:+ x = c +:+ y -> x = y.
Proof.
  induction c as [| a c IH]; [trivial |].
  rewrite !append_cons. intros [= H]. now apply IH.
Qed.

(** Without a [:] in the collections, the joined string tells the pair. *)
Lemma joined_inj (c : string) :
  forall c' t t',
    no_colon c = true -> no_colon c' = true ->
    c +:+ ":" +:+ t = c' +:+ ":" +:+ t' -> c = c' /\ t = t'.
Proof.
  induction c as [| a c IH]; intros [| a' c'] t t' Hc Hc';
    rewrite ?append_cons, ?append_nil_l; simpl in Hc, Hc'; intros Heq.
  - split; [reflexivity |]. now injection Heq.
  - injection Heq as <- _. discriminate Hc'.
  - injection Heq as -> _. discriminate Hc.
  - injection Heq as -> Heq.
    apply andb_prop in Hc as [_ Hc]. apply andb_prop in Hc' as [_ Hc'].
    destruct (IH c' t t' Hc Hc' Heq) as [-> ->]. auto.
Qed.

(** C6, as stated, fails: the collection and the text are joined by [:]
    before hashing, so two different pairs with the same joined string get
    the same id. *)
Lemma hash_id_separator_collision :
  ("docs@v1:x", "y") <> ("docs@v1", "x:y")
  /\ hash_id "y" "docs@v1:x" = hash_id "x:y" "docs@v1".
Proof. split; [discriminate | vm_compute; reflexivity]. Qed.

(** C6 (amended): [hash_id] is a function of its arguments, the SHA-1
    digest in hexadecimal of the UTF-8 bytes of the collection, a [:] and
    the text.  For two different pairs with the same collection, or with
    collections free of [:], the byte strings hashed are different, and the
    ids differ unless these two byte strings have the same SHA-1 digest. *)
Theorem hash_id_distinct_inputs (text collection text' collection' : string) :
  collection = collection'
  \/ (no_colon collection = true /\ no_colon collection' = true) ->
  (collection, text) <> (collection', text') ->
  let m := encode (collection +:+ ":" +:+ text) in
  let m' := encode (collection' +:+ ":" +:+ text') in
  hash_id text collection = hashlib.hexdigest (hashlib.sha1 m)
  /\ hash_id text' collection' = hashlib.hexdigest (hashlib.sha1 m')
  /\ m <> m'
  /\ (hash_id text collection <> hash_id text' collection'
      \/ hashlib.hexdigest (hashlib.sha1 m)
         = hashlib.hexdigest (hashlib.sha1 m')).
Proof.
  intros Hcollections Hpairs m m'.
  split; [reflexivity |]. split; [reflexivity |]. split.
  - intros Heq%encode_inj. apply Hpairs.
    destruct Hcollections as [<- | [Hc Hc']].
    + apply append_inj_l, append_inj_l in Heq. now subst.
    + now destruct (joined_inj _ _ _ _ Hc Hc' Heq) as [-> ->].
  - destruct (decide (hash_id text collection = hash_id text' collection'))
      as [Heq | Hne]; [right; exact Heq | left; exact Hne].
Qed.

Lemma hash_id_distinct_inputs_witness :
  let m := encode ("docs@v1" +:+ ":" +:+ "alpha beta gamma") in
  let m' := encode ("docs@v1" +:+ ":" +:+ "alpha beta gammb") in
  hash_id "alpha beta gamma" "docs@v1" = hashlib.hexdigest (hashlib.sha1 m)
  /\ hash_id "alpha beta gammb" "docs@v1" = hashlib.hexdigest (hashlib.sha1 m')
  /\ m <> m'
  /\ (hash_id "alpha beta gamma" "docs@v1" <> hash_id "alpha beta gammb" "docs@v1"
      \/ hashlib.hexdigest (hashlib.sha1 m)
         = hashlib.hexdigest (hashlib.sha1 m')).
Proof.
  apply (hash_id_distinct_inputs
           "alpha beta gamma" "docs@v1" "alpha beta gammb" "docs@v1").
  - left. reflexivity.
  - discriminate.
Defined.

(** The ids of two texts that differ in one character. *)
Example hash_id_near_duplicates :
  hash_id "alpha beta gamma" "docs@v1"
  <> hash_id "alpha beta gammb" "docs@v1".
Proof. vm_compute. discriminate. Qed.

(** ** More on the embedder *)

Lemma embed_loop_lookup (net : network) (self : Embedder) (texts : list string) :
  forall i vectors result,
    embed_loop net self i texts vectors = Ok result ->
    take (length vectors) result = vectors
    /\ forall j text v,
         texts !! j = Some text ->
         result !! (length vectors + j)%nat = Some v ->
         embed_one (net (i + j)%nat) self text = Ok v.
Proof.
  induction texts as [| text texts IH]; intros i vectors result Hrun;
    simpl in Hrun.
  - injection Hrun as <-. split; [apply firstn_all |].
    intros j text v Hj. now rewrite lookup_nil in Hj.
  - destruct (embed_one (net i) self text) as [v0 | e] eqn:Hone;
      [| discriminate].
    simpl in Hrun. destruct (IH _ _ _ Hrun) as [Htake Hrest].
    rewrite length_app in Htake, Hrest. simpl in Htake, Hrest.
    assert (take (length vectors) result = vectors
            /\ result !! length vectors = Some v0) as [Hvectors Hv0].
    { apply (f_equal (take (length vectors))) in Htake as Htake'.
      rewrite take_take, take_app_length in Htake'.
      rewrite Nat.min_l in Htake' by lia. split; [exact Htake' |].
      apply (f_equal (fun l => l !! length vectors)) in Htake.
      rewrite lookup_take_lt in Htake by lia.
      rewrite Htake. now rewrite list_lookup_middle. }
    split; [exact Hvectors |].
    intros [| j] text' v Hj Hv; simpl in Hj.
    + injection Hj as <-. rewrite Nat.add_0_r in Hv |- *. congruence.
    + replace (i + S j)%nat with (S i + j)%nat by lia.
      apply (Hrest j text' v Hj).
      now replace (length vectors + 1 + j)%nat
        with (length vectors + S j)%nat by lia.
Qed.

(** X: [embed] is order-preserving.  When it returns, there is one vector
    per text, and the vector at each position is the embedding the service
    gave for the text at that position. *)
Theorem embed_one_vector_per_text (net : network) (self : Embedder)
    (texts : list string) (vectors : list vector) :
  embed net self (Strs texts) = Ok vectors ->
  length vectors = length texts
  /\ forall i text v,
       texts !! i = Some text -> vectors !! i = Some v ->
       embed_one (net i) self text = Ok v.
Proof.
  intros Hrun. unfold embed in Hrun. split.
  - now apply embed_loop_length in Hrun.
  - intros i text v Hi Hv.
    destruct (embed_loop_lookup _ _ _ _ _ _ Hrun) as [_ Hrest].
    now apply (Hrest i text v).
Qed.

Lemma embed_one_vector_per_text_witness :
  length [zero_vector; zero_vector] = length ["alpha"; "beta"]
  /\ forall i text v,
       ["alpha"; "beta"] !! i = Some text ->
       [zero_vector; zero_vector] !! i = Some v ->
       embed_one (good_service "docs/a.txt" i) default_embedder text = Ok v.
Proof.
  apply (embed_one_vector_per_text (good_service "docs/a.txt") default_embedder).
  vm_compute. reflexivity.
Defined.

Lemma embed_loop_first_failure (net : network) (self : Embedder)
    (texts : list string) :
  forall i vectors j text e,
    texts !! j = Some text ->
    embed_one (net (i + j)%nat) self text = Raise e ->
    (forall k t, (k < j)%nat -> texts !! k = Some t ->
                 exists v, embed_one (net (i + k)%nat) self t = Ok v) ->
    embed_loop net self i texts vectors = Raise e.
Proof.
  induction texts as [| text0 texts IH]; intros i vectors j text e Hj He Hbefore.
  - now rewrite lookup_nil in Hj.
  - destruct j as [| j]; simpl in Hj.
    + injection Hj as ->. rewrite Nat.add_0_r in He. simpl. now rewrite He.
    + destruct (Hbefore 0%nat text0 ltac:(lia) eq_refl) as [v0 Hv0].
      rewrite Nat.add_0_r in Hv0. simpl. rewrite Hv0. simpl.
      apply (IH (S i) _ j text e Hj).
      * now replace (S i + j)%nat with (i + S j)%nat by lia.
      * intros k t Hk Ht.
        replace (S i + k)%nat with (i + S k)%nat by lia.
        apply (Hbefore (S k) t); [lia | exact Ht].
Qed.

(** X: [embed] stops at the first request that fails.  When the request of
    the text at some position raises and those of all earlier texts were
    answered, [embed] raises that exception and returns no vector at all,
    whatever the service would answer for the later texts. *)
Theorem embed_first_failure (net : network) (self : Embedder)
    (texts : list string) (j : nat) (text : string) (e : exn) :
  texts !! j = Some text ->
  embed_one (net j) self text = Raise e ->
  (forall k t, (k < j)%nat -> texts !! k = Some t ->
               exists v, embed_one (net k) self t = Ok v) ->
  embed net self (Strs texts) = Raise e.
Proof.
  intros Hj He Hbefore. unfold embed.
  now apply (embed_loop_first_failure net self texts 0%nat [] j text e).
Qed.

Lemma embed_first_failure_witness :
  embed second_request_fails default_embedder (Strs ["a"; "b"; "c"])
  = Raise HTTPError.
Proof.
  apply (embed_first_failure second_request_fails default_embedder
           ["a"; "b"; "c"] 1%nat "b" HTTPError).
  - reflexivity.
  - reflexivity.
  - intros k t Hk Ht. destruct k as [| k]; [| lia].
    exists zero_vector. reflexivity.
Defined.

(** X: the server embeds a query with the request the processor sends for
    a chunk: same URL, same model. *)
Theorem get_embedding_as_embedder (post : request -> reply) (text : string) :
  get_embedding post text = embed_one post default_embedder text
  /\ embed (fun _ => post) default_embedder (Str text)
     = match get_embedding post text with
       | Ok v => Ok [v]
       | Raise e => Raise e
       end.
Proof.
  split; [reflexivity |].
  unfold embed. simpl.
  change (embed_one post default_embedder text) with (get_embedding post text).
  now destruct (get_embedding post text).
Qed.

(** ** More on the store *)

Lemma insert_all_lookup (rows : list row) :
  forall (t t' : table) (i : string),
    insert_all rows t = Ok t' ->
    t' !! i = match t !! i with
              | Some r => Some r
              | None => head (filter (fun r => row_id r = i) rows)
              end.
Proof.
  induction rows as [| r rows IH]; intros t t' i Hrun; simpl in Hrun.
  - injection Hrun as <-. now destruct (t !! i).
  - destruct (insert_row r t) as [t1 | e] eqn:Hrow; [| discriminate].
    simpl in Hrun. rewrite (IH _ _ i Hrun).
    unfold insert_row in Hrow. case_bool_decide; [| discriminate].
    destruct (decide (row_id r = i)) as [<- | Hne].
    + rewrite filter_cons_True by reflexivity. simpl.
      destruct (t !! row_id r) as [r0 |] eqn:Hid; injection Hrow as <-.
      * now rewrite Hid.
      * now rewrite lookup_insert_eq.
    + rewrite filter_cons_False by assumption.
      destruct (t !! row_id r) as [r0 |] eqn:Hid; injection Hrow as <-.
      * reflexivity.
      * now rewrite lookup_insert_ne.
Qed.

Lemma insert_all_dom (rows : list row) :
  forall (t t' : table),
    insert_all rows t = Ok t' ->
    dom t' = dom t ∪ list_to_set (row_id <$> rows).
Proof.
  induction rows as [| r rows IH]; intros t t' Hrun; simpl in Hrun.
  - injection Hrun as <-. set_solver.
  - destruct (insert_row r t) as [t1 | e] eqn:Hrow; [| discriminate].
    simpl in Hrun. rewrite (IH _ _ Hrun).
    unfold insert_row in Hrow. case_bool_decide; [| discriminate].
    destruct (t !! row_id r) as [r0 |] eqn:Hid; injection Hrow as <-.
    + assert (row_id r ∈ dom t) by (apply elem_of_dom; eauto).
      set_solver.
    + rewrite dom_insert_L. set_solver.
Qed.

Lemma insert_all_bad (rows : list row) :
  forall t, Exists (fun r => ~ document_chunk r) rows ->
    insert_all rows t = Raise DataError.
Proof.
  induction rows as [| r rows IH]; intros t Hbad; [now inversion Hbad |].
  simpl. unfold insert_row. case_bool_decide as Hr.
  - apply Exists_cons in Hbad as [Hbad | Hbad]; [contradiction |].
    destruct (t !! row_id r); simpl; now apply IH.
  - reflexivity.
Qed.

(** X: in one batch the first row of an id wins.  After a batch of
    [DocumentChunk] rows, the row stored under an id is the one the store
    held before, or else the first row of the batch with that id; the ids
    stored are those from before and those of the batch. *)
Theorem insert_chunks_first_write_wins (store : table) (rows : list row) :
  Forall document_chunk rows ->
  let after := committed (snd (insert_chunks rows (connect store))) in
  (forall i,
     after !! i = match store !! i with
                  | Some r => Some r
                  | None => head (filter (fun r => row_id r = i) rows)
                  end)
  /\ dom after = dom store ∪ list_to_set (row_id <$> rows).
Proof.
  intros Hrows after. subst after.
  destruct (insert_all_ok rows store Hrows) as [work' Hall].
  pose proof (insert_chunks_spec rows (connect store)) as Hrun.
  change (working (connect store)) with store in Hrun.
  rewrite Hall in Hrun. rewrite Hrun by discriminate. simpl. split.
  - intros i. now apply insert_all_lookup.
  - now apply insert_all_dom.
Qed.

Lemma insert_chunks_first_write_wins_witness :
  let rows := [example_row "alpha"; example_row "beta"; example_row "alpha"] in
  let after := committed (snd (insert_chunks rows (connect ∅))) in
  (forall i,
     after !! i = match (∅ : table) !! i with
                  | Some r => Some r
                  | None => head (filter (fun r => row_id r = i) rows)
                  end)
  /\ dom after = dom (∅ : table) ∪ list_to_set (row_id <$> rows).
Proof.
  apply (insert_chunks_first_write_wins ∅).
  repeat constructor.
Defined.

(** X: a row whose vector has another dimension than the column fails the
    whole batch: [insert_chunks] raises, commits nothing and leaves the
    transaction aborted, and since nothing rolls it back every later batch
    on this connection that is not empty raises as well. *)
Theorem insert_chunks_bad_dimension (rows later : list row) (c : connection) :
  tx c <> Aborted ->
  Exists (fun r => length (row_vector r) <> EMBEDDING_DIM) rows ->
  later <> [] ->
  let failed := {| committed := committed c; tx := Aborted |} in
  insert_chunks rows c = (Raise DataError, failed)
  /\ insert_chunks later failed = (Raise InFailedSqlTransaction, failed).
Proof.
  intros Hc Hbad Hlater failed. split.
  - pose proof (insert_chunks_spec rows c Hc) as Hrun.
    now rewrite (insert_all_bad rows (working c) Hbad) in Hrun.
  - rewrite insert_chunks_aborted by reflexivity.
    destruct later; [contradiction | reflexivity].
Qed.

Lemma insert_chunks_bad_dimension_witness :
  let failed := {| committed := ∅; tx := Aborted |} in
  insert_chunks [example_row "alpha"; short_row] (connect ∅)
    = (Raise DataError, failed)
  /\ insert_chunks [example_row "beta"] failed
     = (Raise InFailedSqlTransaction, failed).
Proof.
  apply (insert_chunks_bad_dimension
           [example_row "alpha"; short_row] [example_row "beta"] (connect ∅)).
  - discriminate.
  - apply Exists_cons_tl, Exists_cons_hd. discriminate.
  - discriminate.
Defined.

(** ** More on the sliding window *)

Section windows.

Variable words : list string.
Hypothesis words_ok : Forall word words.

Variables target_size overlap : Z.
Hypothesis window_ok : 0 <= overlap < target_size.

Let T : nat := Z.to_nat target_size.
Let O : nat := Z.to_nat overlap.

(** The chunks added from the start [k] on are the windows at [k],
    [k + (T - O)], [k + 2 (T - O)], .. that start before the end. *)
Lemma chunk_loop_windows (fuel : nat) :
  forall (k : nat) (chunks : list string),
    (length words - k <= fuel)%nat ->
    exists added,
      chunk_loop fuel words target_size overlap (Z.of_nat k) chunks
        = Some (chunks ++ added)
      /\ forall i,
           added !! i
           = if decide (k + i * (T - O) < length words)%nat
             then Some (join " " (take T (drop (k + i * (T - O)) words)))
             else None.
Proof.
  induction fuel as [| fuel IH]; intros k chunks Hfuel.
  - exists []. rewrite chunk_loop_exit by lia. rewrite app_nil_r.
    split; [reflexivity |]. intros i. rewrite lookup_nil.
    case_decide; [lia | reflexivity].
  - destruct (decide (length words <= k)%nat) as [Hk | Hk].
    + exists []. rewrite chunk_loop_exit by lia. rewrite app_nil_r.
      split; [reflexivity |]. intros i. rewrite lookup_nil.
      case_decide; [lia | reflexivity].
    + rewrite chunk_loop_step by lia.
      rewrite py_slice_window by lia. fold T.
      replace (Z.of_nat k + target_size - overlap)
        with (Z.of_nat (k + (T - O))) by (subst T O; lia).
      destruct (IH (k + (T - O))%nat
                  (chunks ++ [join " " (take T (drop k words))]))
        as (added & Hrun & Hadded); [subst T O; lia |].
      exists (join " " (take T (drop k words)) :: added).
      rewrite Hrun, <- app_assoc. split; [reflexivity |].
      intros [| i]; simpl.
      * rewrite Nat.add_0_r. case_decide; [reflexivity | lia].
      * rewrite Hadded.
        replace (k + (T - O) + i * (T - O))%nat
          with (k + (T - O + i * (T - O)))%nat by lia.
        reflexivity.
Qed.

Lemma chunk_loop_from_zero :
  exists chunks,
    (forall fuel, (length words <= fuel)%nat ->
       chunk_loop fuel words target_size overlap 0 [] = Some chunks)
    /\ forall i,
         chunks !! i
         = if decide (i * (T - O) < length words)%nat
           then Some (join " " (take T (drop (i * (T - O)) words)))
           else None.
Proof.
  destruct (chunk_loop_windows (length words) 0 []) as (chunks & Hrun & Hat);
    [lia |].
  exists chunks. split; [| exact Hat].
  intros fuel Hfuel.
  now apply (chunk_loop_more_fuel _ _ _ (length words)).
Qed.

End windows.

(** X: the chunks are the windows of the text.  With an effective overlap
    [o] below the effective window [t], chunk number [i] is the [t] words
    (fewer at the end of the text) from the word number [i (t - o)] on,
    joined by single spaces, and there is one chunk for every such start
    before the end of the text. *)
Theorem auto_chunk_windows (text : string) (target_size overlap t o : Z) :
  adjust (Z.of_nat (length (split text))) target_size overlap = (t, o) ->
  0 <= o < t ->
  exists chunks,
    (forall fuel, (length (split text) <= fuel)%nat ->
       auto_chunk fuel text target_size overlap = Some chunks)
    /\ forall i,
         chunks !! i
         = if decide (i * (Z.to_nat t - Z.to_nat o) < length (split text))%nat
           then Some (join " " (take (Z.to_nat t)
                                  (drop (i * (Z.to_nat t - Z.to_nat o))
                                     (split text))))
           else None.
Proof.
  intros Hadjust Hwindow. unfold auto_chunk. rewrite Hadjust.
  now apply chunk_loop_from_zero.
Qed.

Lemma auto_chunk_windows_witness :
  exists chunks,
    (forall fuel, (length (split "a b c d e") <= fuel)%nat ->
       auto_chunk fuel "a b c d e" 2 1 = Some chunks)
    /\ forall i,
         chunks !! i
         = if decide (i * (Z.to_nat 2 - Z.to_nat 1)
                      < length (split "a b c d e"))%nat
           then Some (join " " (take (Z.to_nat 2)
                                  (drop (i * (Z.to_nat 2 - Z.to_nat 1))
                                     (split "a b c d e"))))
           else None.
Proof.
  apply (auto_chunk_windows "a b c d e" 2 1 2 1).
  - reflexivity.
  - lia.
Defined.

(** X: consecutive chunks overlap.  A chunk that has a successor is a full
    window, and its last [o] words are the first [o] words of the
    successor. *)
Theorem auto_chunk_overlap (text : string) (target_size overlap t o : Z)
    (fuel i : nat) (chunks : list string) (c c' : string) :
  adjust (Z.of_nat (length (split text))) target_size overlap = (t, o) ->
  0 <= o < t ->
  (length (split text) <= fuel)%nat ->
  auto_chunk fuel text target_size overlap = Some chunks ->
  chunks !! i = Some c ->
  chunks !! S i = Some c' ->
  drop (Z.to_nat t - Z.to_nat o) (split c) = take (Z.to_nat o) (split c').
Proof.
  intros Hadjust Hwindow Hfuel Hrun Hc Hc'.
  destruct (auto_chunk_windows text target_size overlap t o Hadjust Hwindow)
    as (chunks' & Hrun' & Hat).
  rewrite (Hrun' fuel Hfuel) in Hrun. injection Hrun as <-.
  rewrite Hat in Hc, Hc'.
  destruct (decide _) as [Hi |] in Hc; [| discriminate].
  destruct (decide _) as [Hi' |] in Hc'; [| discriminate].
  injection Hc as <-. injection Hc' as <-.
  pose proof (split_words text) as Hwords.
  rewrite !split_join by (apply Forall_take, Forall_drop, Hwords).
  set (T := Z.to_nat t) in *. set (O := Z.to_nat o) in *.
  assert (O < T)%nat as HOT by (subst T O; lia).
  rewrite skipn_firstn_comm, drop_drop.
  replace (T - (T - O))%nat with O by lia.
  rewrite take_take. rewrite Nat.min_l by lia.
  f_equal. f_equal. simpl. lia.
Qed.

Lemma auto_chunk_overlap_witness :
  drop (Z.to_nat 2 - Z.to_nat 1) (split "a b") = take (Z.to_nat 1) (split "b c").
Proof.
  apply (auto_chunk_overlap "a b c d e" 2 1 2 1 5 0
           ["a b"; "b c"; "c d"; "d e"; "e"] "a b" "b c").
  - reflexivity.
  - lia.
  - vm_compute. lia.
  - reflexivity.
  - reflexivity.
  - reflexivity.
Defined.

(** X: with the default window, as [ingest_folder] calls it, [auto_chunk]
    returns for every text, and every chunk it returns has at least one
    word and at most 1600 words. *)
Theorem auto_chunk_default_bounds (text : string) :
  exists chunks,
    auto_chunk (String.length text) text DEFAULT_CHUNK_SIZE DEFAULT_OVERLAP
      = Some chunks
    /\ Forall (fun c => (1 <= length (split c) <= 1600)%nat) chunks.
Proof.
  destruct (adjust (Z.of_nat (length (split text)))
              DEFAULT_CHUNK_SIZE DEFAULT_OVERLAP) as [t o] eqn:Hadjust.
  assert (0 <= o < t /\ t <= 1600) as [Hwindow Ht].
  { unfold adjust, DEFAULT_CHUNK_SIZE, DEFAULT_OVERLAP in Hadjust.
    destruct (_ <? 800) eqn:Hshort in Hadjust.
    - apply Z.ltb_lt in Hshort.
      set (n := Z.of_nat (length (split text))) in *.
      pose proof (Z.div_pos n 2 ltac:(lia) ltac:(lia)).
      pose proof (Z.div_lt_upper_bound n 2 800 ltac:(lia) ltac:(lia)).
      set (m := Z.max 50 (n / 2)) in *.
      assert (50 <= m <= 800) as Hm by (subst m; lia). clearbody m.
      pose proof (Z.div_lt_upper_bound m 10 m ltac:(lia) ltac:(lia)).
      pose proof (Z.div_pos m 10 ltac:(lia) ltac:(lia)).
      injection Hadjust as <- <-. lia.
    - destruct (5000 <? _) in Hadjust; injection Hadjust as <- <-; lia. }
  destruct (auto_chunk_windows text _ _ t o Hadjust Hwindow)
    as (chunks & Hrun & Hat).
  exists chunks. split; [apply Hrun, split_length |].
  apply Forall_lookup. intros i c Hc. rewrite Hat in Hc.
  destruct (decide _) as [Hi |] in Hc; [| discriminate].
  injection Hc as <-.
  rewrite split_join by (apply Forall_take, Forall_drop, split_words).
  rewrite length_take, length_drop. lia.
Qed.

(** ** More on ingestion *)

(** X: [ingest_folder] as it is written commits nothing.  The pool calls
    [process_file] with five arguments, so as soon as the folder holds one
    file to ingest the run raises and the connection is as before the run;
    the exception is [TypeError] when every file could be read. *)
Theorem ingest_folder_raises (fs : filesystem) (net : string -> network)
    (as_completed : list future -> list future)
    (db : connection) (embedder : Embedder) (folder collection : string) :
  (forall l, as_completed l ≡ₚ l) ->
  list_files fs folder <> [] ->
  exists e,
    ingest_folder fs net as_completed db embedder folder collection
      = Some (Raise e, db)
    /\ ((forall file, file ∈ list_files fs folder ->
                      exists text, read_text fs file = Ok text) ->
        e = TypeError).
Proof.
  intros Hperm Hfiles. unfold ingest_folder, ingest_folder_with, ingest_rows.
  destruct (submit_all_total fs
              (fun chunks file =>
                 submitted_task fs net embedder chunks file collection folder)
              (list_files fs folder) []) as [[futures | e0] Hsub];
    rewrite Hsub.
  - apply submit_all_ok in Hsub as (new & -> & Hnew). simpl.
    assert (Forall (fun fut => fut = Raise TypeError) new) as Hall.
    { apply Forall_forall. intros fut Hfut.
      apply list_elem_of_lookup in Hfut as [i Hi].
      destruct (Forall2_lookup_r _ _ _ _ _ Hnew Hi)
        as (file & _ & text & chunks & _ & _ & ->).
      apply submitted_task_raises. }
    rewrite <- (Hperm new) in Hall.
    destruct (as_completed new) as [| fut completed] eqn:Hcompleted.
    + apply Forall2_length in Hnew.
      pose proof (Permutation_length (Hperm new)) as Hlen.
      rewrite Hcompleted in Hlen. simpl in Hlen.
      destruct (list_files fs folder); [contradiction | simpl in *; lia].
    + apply Forall_cons in Hall as [-> _]. simpl.
      exists TypeError. auto.
  - exists e0. split; [reflexivity |]. intros Hread.
    exfalso. clear Hfiles.
    assert (forall files futures,
              (forall file, file ∈ files -> exists text, read_text fs file = Ok text) ->
              submit_all fs
                (fun chunks file =>
                   submitted_task fs net embedder chunks file collection folder)
                files futures <> Some (Raise e0)) as Hno.
    { induction files as [| file files IH]; intros futures Hok; simpl;
        [discriminate |].
      destruct (Hok file ltac:(apply list_elem_of_here)) as [text ->].
      destruct (auto_chunk_default text) as [chunks ->].
      apply IH. intros f Hf. apply Hok. now apply list_elem_of_further. }
    exact (Hno _ _ Hread Hsub).
Qed.

Lemma ingest_folder_raises_witness :
  exists e,
    ingest_folder two_files good_service id (connect ∅)
      default_embedder "docs" "docs@v1" = Some (Raise e, connect ∅)
    /\ ((forall file, file ∈ list_files two_files "docs" ->
                      exists text, read_text two_files file = Ok text) ->
        e = TypeError).
Proof.
  apply (ingest_folder_raises two_files good_service id (connect ∅)
           default_embedder "docs" "docs@v1").
  - intros l. reflexivity.
  - vm_compute. discriminate.
Defined.

(** ** More on search *)

(** X: [search_documents] returns the closest rows of the collection.
    Let the query be embedded as a vector of 1 to [VECTOR_MAX_DIM]
    coordinates, as many as the vectors of the rows of the collection, and
    let the limit be a [bigint] that is not negative.  Then the call returns
    min(limit, number of rows of the collection) rows, each with its
    Euclidean distance to the query vector, closest first; the rows of the
    collection it leaves out are at least as far as every row it returns. *)
Theorem search_documents_top_k (post : request -> reply)
    (dist : metric -> vector -> vector -> Q) (store : table)
    (query collection : string) (limit : Z) (query_vector : vector) :
  get_embedding post query = Ok query_vector ->
  (0 < length query_vector)%nat ->
  Z.of_nat (length query_vector) <= VECTOR_MAX_DIM ->
  0 <= limit < 2 ^ 63 ->
  Forall (fun r => length (row_vector r) = length query_vector)
    (collection_rows collection store) ->
  exists hits others,
    search_documents post dist store query collection limit
    = Ok (map (fun h => (row_text (hit_row h), row_vmetadata (hit_row h),
                         distance h)) hits)
    /\ length hits
       = (Z.to_nat limit `min` length (collection_rows collection store))%nat
    /\ StronglySorted closer hits
    /\ hit_row <$> (hits ++ others) ≡ₚ collection_rows collection store
    /\ (forall h, h ∈ hits ++ others ->
          distance h = dist Euclidean (row_vector (hit_row h)) query_vector)
    /\ (forall h h', h ∈ hits -> h' ∈ others ->
          (distance h <= distance h')%Q).
Proof.
  intros Hquery Hdim Hmax Hlimit Hrows.
  unfold search_documents. rewrite Hquery. simpl.
  destruct (run_select_top dist (fun _ => true) query_vector collection limit
              store Hdim Hmax Hlimit Hrows)
    as (hits & others & Hrun & Hrest).
  exists hits, others. unfold execute_select. simpl. rewrite Hrun.
  split; [reflexivity | exact Hrest].
Qed.

(** Of the rows at 1 and at 5 of [docs@v1], a query at 2 with the limit 1
    finds the row at 1; the row of [notes@v1] is not looked at. *)
Lemma search_documents_top_k_witness :
  (exists hits others,
     search_documents axis_service square_distance three_rows
       "alpha" "docs@v1" 1
     = Ok (map (fun h => (row_text (hit_row h), row_vmetadata (hit_row h),
                          distance h)) hits)
     /\ length hits
        = (Z.to_nat 1 `min` length (collection_rows "docs@v1" three_rows))%nat
     /\ StronglySorted closer hits
     /\ hit_row <$> (hits ++ others) ≡ₚ collection_rows "docs@v1" three_rows
     /\ (forall h, h ∈ hits ++ others ->
           distance h = square_distance Euclidean (row_vector (hit_row h))
                          (axis_vector 2%Q))
     /\ (forall h h', h ∈ hits -> h' ∈ others ->
           (distance h <= distance h')%Q))
  /\ length (collection_rows "docs@v1" three_rows) = 2%nat
  /\ search_documents axis_service square_distance three_rows
       "alpha" "docs@v1" 1
     = Ok [("near", {| source := "a.txt"; product := "a.txt" |}, 1%Q)].
Proof.
  split; [| split; vm_compute; reflexivity].
  apply (search_documents_top_k axis_service square_distance three_rows
           "alpha" "docs@v1" 1 (axis_vector 2%Q)).
  - reflexivity.
  - vm_compute. lia.
  - vm_compute. discriminate.
  - lia.
  - vm_compute. repeat constructor.
Defined.

(** ** The length of strings *)

Lemma length_append (a b : string) :
  String.length (a +:+ b) = (String.length a + String.length b)%nat.
Proof.
  induction a as [| c a IH]; [reflexivity |].
  rewrite append_cons. simpl. now rewrite IH.
Qed.

(** ** More on the embedder: the base URL *)

Lemma rstrip_no_trailing (ch : ascii) (s : string) :
  forall r, rstrip ch s <> r +:+ String ch "".
Proof.
  induction s as [| c s IH]; intros r Heq; simpl in Heq.
  - destruct r; discriminate Heq.
  - destruct (rstrip ch s) as [| c' s'] eqn:Hs.
    + destruct (Ascii.eqb c ch) eqn:Hc.
      * destruct r; discriminate Heq.
      * destruct r as [| a r]; [| destruct r; discriminate Heq].
        injection Heq as ->. now rewrite Ascii.eqb_refl in Hc.
    + destruct r as [| a r]; [discriminate Heq |].
      rewrite append_cons in Heq. injection Heq as _ Heq.
      now apply (IH r).
Qed.

Lemma rstrip_app_char (ch : ascii) (s : string) :
  rstrip ch (s +:+ String ch "") = rstrip ch s.
Proof.
  induction s as [| c s IH].
  - simpl. now rewrite Ascii.eqb_refl.
  - rewrite append_cons. simpl. now rewrite IH.
Qed.

(** X: the trailing slashes of the base URL do not count.  An embedder
    made from a base URL with one more [/] at its end is the same embedder,
    and the base URL it keeps never ends in [/], so the request URL has a
    single [/] before [api/embeddings]. *)
Theorem Embedder_init_trailing_slash (name address : string) :
  Embedder_init name (address +:+ "/") = Embedder_init name address
  /\ forall prefix,
       base_url (Embedder_init name address) <> prefix +:+ "/".
Proof.
  unfold Embedder_init. split.
  - f_equal. apply rstrip_app_char.
  - intros prefix. simpl. apply rstrip_no_trailing.
Qed.

(** ** The schema *)

Lemma foldr_max_ge (v : Z) (vs : list Z) :
  v <= foldr Z.max v vs /\ Forall (fun x => x <= foldr Z.max v vs) vs.
Proof.
  induction vs as [| x vs [IH1 IH2]]; simpl; [split; [lia | constructor] |].
  split; [lia |]. constructor; [lia |].
  eapply Forall_impl; [exact IH2 |]. simpl. lia.
Qed.

Lemma max_version_ge (versions : gset Z) (v : Z) :
  v ∈ versions -> exists m, max_version versions = Some m /\ v <= m.
Proof.
  intros Hv. apply elem_of_elements in Hv. unfold max_version.
  destruct (elements versions) as [| x xs]; [now apply elem_of_nil in Hv |].
  eexists. split; [reflexivity |].
  destruct (foldr_max_ge x xs) as [Hx Hxs].
  apply elem_of_cons in Hv as [-> | Hv]; [exact Hx |].
  rewrite Forall_forall in Hxs. now apply Hxs.
Qed.

(** The migration is run only when the version of the code is not yet
    recorded. *)
Lemma migration_fresh (versions : gset Z) :
  or_zero (max_version versions) < SCHEMA_VERSION ->
  SCHEMA_VERSION ∉ versions.
Proof.
  intros Hcurrent Hin.
  destruct (max_version_ge versions SCHEMA_VERSION Hin) as (m & Hm & Hle).
  rewrite Hm in Hcurrent. unfold or_zero, SCHEMA_VERSION in *.
  destruct (m =? 0) eqn:Hz; [apply Z.eqb_eq in Hz |]; lia.
Qed.

Lemma recorded_current (versions : gset Z) :
  SCHEMA_VERSION ∈ versions ->
  (or_zero (max_version versions) <? SCHEMA_VERSION) = false.
Proof.
  intros Hin. apply Z.ltb_ge.
  destruct (max_version_ge versions SCHEMA_VERSION Hin) as (m & -> & Hle).
  unfold or_zero, SCHEMA_VERSION in *.
  destruct (m =? 0) eqn:Hz; [apply Z.eqb_eq in Hz |]; lia.
Qed.

Lemma create_index_again (name : string) (def : index_def)
    (indexes : gmap string index_def) :
  create_index name def (create_index name def indexes)
  = create_index name def indexes.
Proof.
  unfold create_index.
  destruct (indexes !! name) as [d |] eqn:Hname; [now rewrite Hname |].
  now rewrite lookup_insert_eq.
Qed.

Lemma create_index_present (name name' : string) (def def' : index_def)
    (indexes : gmap string index_def) :
  is_Some (indexes !! name) ->
  is_Some (create_index name' def' indexes !! name)
  /\ create_index name def (create_index name' def' indexes)
     = create_index name' def' indexes.
Proof.
  intros [d Hd]. unfold create_index at 1 3 4.
  destruct (indexes !! name') as [d' |] eqn:Hname'.
  - split; [eauto |]. unfold create_index. now rewrite Hd.
  - destruct (decide (name' = name)) as [-> | Hne]; [congruence |].
    assert (<[name' := def']> indexes !! name = Some d) as Hkept
      by now rewrite lookup_insert_ne.
    split; [eauto |]. unfold create_index. now rewrite Hkept.
Qed.

Lemma create_index_keeps (name : string) (def : index_def)
    (indexes : gmap string index_def) (other : string) (d : index_def) :
  indexes !! other = Some d -> create_index name def indexes !! other = Some d.
Proof.
  intros Hother. unfold create_index.
  destruct (indexes !! name) eqn:Hname; [assumption |].
  destruct (decide (name = other)) as [-> | Hne]; [congruence |].
  now rewrite lookup_insert_ne.
Qed.

Lemma create_index_made (name : string) (def : index_def)
    (indexes : gmap string index_def) :
  is_Some (create_index name def indexes !! name).
Proof.
  unfold create_index. destruct (indexes !! name) eqn:Hname; [eauto |].
  rewrite lookup_insert_eq. eauto.
Qed.

(** X: [initialize_schema] can be run on any database and run again.  It
    never fails on the primary key of the version table, because the
    version is inserted only when no version as high is recorded; it leaves
    the rows of [document_chunk] and the recorded versions in place, records
    the version of the code unless a higher one is, keeps every index that
    exists under its definition and makes the three indexes; and a second
    run changes nothing. *)
Theorem initialize_schema_idempotent (db : database) :
  exists db',
    initialize_schema db = SchemaReady db'
    /\ initialize_schema db' = SchemaReady db'
    /\ db_chunks db' = Some (default ∅ (db_chunks db))
    /\ (exists versions',
          db_versions db' = Some versions'
          /\ default ∅ (db_versions db) ⊆ versions'
          /\ exists v, v ∈ versions' /\ SCHEMA_VERSION <= v)
    /\ (forall name d, db_indexes db !! name = Some d ->
                       db_indexes db' !! name = Some d)
    /\ Forall (fun name => is_Some (db_indexes db' !! name))
         ["idx_document_chunk_collection_name";
          "idx_document_chunk_vector_ivfflat";
          "idx_document_chunk_vector_hnsw"].
Proof.
  unfold initialize_schema.
  set (versions := default ∅ (db_versions db)).
  set (indexes :=
         foldl (fun indexes ix =>
                  create_index (index_name ix) (VectorIndex ix) indexes)
           (create_index "idx_document_chunk_collection_name"
              (BtreeIndex "collection_name") (db_indexes db))
           initialize_schema_indexes).
  assert (exists versions',
            (if or_zero (max_version versions) <? SCHEMA_VERSION
             then apply_migrations (or_zero (max_version versions)) versions
             else Some versions) = Some versions'
            /\ versions ⊆ versions'
            /\ (exists v, v ∈ versions' /\ SCHEMA_VERSION <= v)
            /\ (or_zero (max_version versions') <? SCHEMA_VERSION) = false)
    as (versions' & -> & Hsub & Hrecorded & Hcurrent).
  { destruct (or_zero (max_version versions) <? SCHEMA_VERSION) eqn:Hlt.
    - apply Z.ltb_lt in Hlt. apply migration_fresh in Hlt.
      unfold apply_migrations. rewrite decide_False by assumption.
      eexists. split; [reflexivity |]. split; [set_solver |].
      split; [exists SCHEMA_VERSION; split; [set_solver | lia] |].
      apply recorded_current. set_solver.
    - exists versions. split; [reflexivity |]. split; [reflexivity |].
      split; [| exact Hlt].
      apply Z.ltb_ge in Hlt.
      destruct (max_version versions) as [m |] eqn:Hm;
        [| unfold or_zero, SCHEMA_VERSION in Hlt; lia].
      exists m. split.
      + unfold max_version in Hm.
        destruct (elements versions) as [| x xs] eqn:Hel; [discriminate |].
        injection Hm as <-. apply elem_of_elements. rewrite Hel.
        clear. induction xs as [| y xs IH]; simpl; [apply list_elem_of_here |].
        destruct (Z.max_spec y (foldr Z.max x xs)) as [[_ ->] | [_ ->]].
        * apply elem_of_cons in IH as [IH | IH];
            [rewrite IH; apply list_elem_of_here |].
          now apply list_elem_of_further, list_elem_of_further.
        * apply list_elem_of_further, list_elem_of_here.
      + unfold or_zero in Hlt. unfold SCHEMA_VERSION in *.
        destruct (m =? 0); lia. }
  eexists. split; [reflexivity |].
  cbn [db_versions db_chunks db_indexes db_extensions default]. unfold id.
  rewrite Hcurrent. fold indexes.
  assert (is_Some (indexes !! "idx_document_chunk_collection_name")
          /\ is_Some (indexes !! "idx_document_chunk_vector_ivfflat")
          /\ is_Some (indexes !! "idx_document_chunk_vector_hnsw"))
    as (Hbtree & Hivf & Hhnsw).
  { subst indexes. simpl. split; [| split].
    - apply create_index_present with (def := BtreeIndex "collection_name").
      apply create_index_present with (def := BtreeIndex "collection_name").
      apply create_index_made.
    - apply create_index_present
        with (def := VectorIndex
                       {| index_name := "idx_document_chunk_vector_ivfflat";
                          access_method := ivfflat;
                          ops := vector_cosine_ops |}).
      apply create_index_made.
    - apply create_index_made. }
  split; [| split; [reflexivity | split; [| split; [| auto]]]].
  - f_equal. f_equal; [set_solver |].
    assert (forall name def, is_Some (indexes !! name) ->
                             create_index name def indexes = indexes) as Hkeep.
    { intros name def [d Hd]. unfold create_index. now rewrite Hd. }
    unfold initialize_schema_indexes. cbn [foldl index_name].
    now rewrite (Hkeep _ _ Hbtree), (Hkeep _ _ Hivf), (Hkeep _ _ Hhnsw).
  - exists versions'. auto.
  - intros name d Hd. subst indexes. simpl.
    now repeat apply create_index_keeps.
Qed.

(** ** The collections *)

Lemma count_by_collection_lookup (rows : list row) (name : string) :
  count_by_collection rows !! name
  = match length (filter (fun r => row_collection_name r = name) rows) with
    | O => None
    | S n => Some (S n)
    end.
Proof.
  induction rows as [| r rows IH]; [reflexivity |].
  simpl. destruct (decide (row_collection_name r = name)) as [<- | Hne].
  - rewrite lookup_insert_eq, filter_cons_True by reflexivity.
    rewrite IH. simpl.
    now destruct (length (filter _ rows)).
  - rewrite lookup_insert_ne, filter_cons_False by assumption. exact IH.
Qed.

Lemma sum_list_perm (l1 l2 : list nat) :
  l1 ≡ₚ l2 -> sum_list l1 = sum_list l2.
Proof. induction 1; simpl; lia. Qed.

Lemma count_by_collection_sum (rows : list row) :
  sum_list (map_to_list (count_by_collection rows)).*2 = length rows.
Proof.
  induction rows as [| r rows IH]; [reflexivity |].
  simpl. set (counts := count_by_collection rows) in *.
  set (name := row_collection_name r).
  destruct (counts !! name) as [n |] eqn:Hname; simpl.
  - pose proof (sum_list_perm _ _
                  (fmap_Permutation snd _ _
                     (map_to_list_insert (delete name counts) name (S n)
                        (lookup_delete_eq counts name)))) as Hnew.
    rewrite insert_delete_eq in Hnew.
    pose proof (sum_list_perm _ _
                  (fmap_Permutation snd _ _
                     (map_to_list_delete counts name n Hname))) as Hold.
    simpl in Hnew, Hold. rewrite Hnew. f_equal. rewrite Hold. exact IH.
  - pose proof (sum_list_perm _ _
                  (fmap_Permutation snd _ _
                     (map_to_list_insert counts name 1%nat Hname))) as Hnew.
    simpl in Hnew. rewrite Hnew. f_equal. exact IH.
Qed.

(** X: [list_collections] counts every row once.  It lists each
    collection of the store once, with the number of rows of that
    collection, which is never zero; the counts add up to the number of
    rows of the store. *)
Theorem list_collections_counts (collate : relation string)
    `{!RelDecision collate} (store : table) :
  NoDup (list_collections collate store).*1
  /\ (forall name n,
        (name, n) ∈ list_collections collate store
        <-> n = length (collection_rows name store) /\ (0 < n)%nat)
  /\ sum_list (list_collections collate store).*2 = size store.
Proof.
  unfold list_collections.
  set (counts := count_by_collection (map snd (map_to_list store))).
  assert (merge_sort (by_name collate) (map_to_list counts)
          ≡ₚ map_to_list counts) as Hperm by apply merge_sort_Permutation.
  split; [| split].
  - rewrite Hperm. apply NoDup_fst_map_to_list.
  - intros name n. rewrite Hperm, elem_of_map_to_list.
    subst counts. rewrite count_by_collection_lookup.
    fold (collection_rows name store).
    destruct (length (collection_rows name store)) as [| m]; split.
    + discriminate.
    + intros [-> H]. lia.
    + intros [= <-]. split; [reflexivity | lia].
    + now intros [-> _].
  - rewrite (sum_list_perm _ _ (fmap_Permutation snd _ _ Hperm)).
    subst counts. rewrite count_by_collection_sum.
    now rewrite length_map, length_map_to_list.
Qed.

(** ** The verification loop *)

Lemma verify_loop_spec (net : nat -> network)
    (complete : nat -> completion_request -> completion_reply)
    (request_exception : exn -> bool) (message : exn -> string)
    (dist : metric -> vector -> vector -> Q)
    (db : connection) (embedder : Embedder) (collection : string) (top_k : Z)
    (lines : list string) :
  forall n printed,
    verify_loop net complete request_exception message dist
      db embedder collection top_k n lines printed
    = match list_find (fun line => strip line <> "") lines with
      | None => (printed ++ replicate (S (length lines)) "> ", EndOfInput)
      | Some (i, line) =>
          (printed ++ replicate (S i) "> ",
           Raised match embed_one (net (n + i)%nat 0%nat) embedder (strip line) with
                  | Ok _ => TypeError
                  | Raise e => e
                  end)
      end.
Proof.
  induction lines as [| line lines IH]; intros n printed; [reflexivity |].
  cbn [verify_loop list_find].
  destruct (String.eqb (strip line) "") eqn:Hblank.
  - apply String.eqb_eq in Hblank.
    rewrite decide_False by (intros H; now apply H).
    rewrite IH.
    destruct (list_find _ lines) as [[i l] |]; simpl;
      rewrite <- app_assoc; [| reflexivity].
    now rewrite Nat.add_succ_r.
  - apply String.eqb_neq in Hblank. rewrite decide_True by assumption.
    rewrite Nat.add_0_r. unfold embed. simpl.
    destruct (embed_one (net n 0%nat) embedder (strip line)) as [v | e];
      reflexivity.
Qed.

(** X: [verify_rag] never answers a query.  Lines that are blank once
    stripped are skipped; the first other line ends the loop, with the
    exception of its embedding or else with the [TypeError] of
    [similarity_search]; without such a line the loop ends when the input
    does.  After the banner nothing is written but the prompt, once for
    every line asked for. *)
Theorem verify_rag_never_answers (net : nat -> network)
    (complete : nat -> completion_request -> completion_reply)
    (request_exception : exn -> bool) (message : exn -> string)
    (dist : metric -> vector -> vector -> Q)
    (db : connection) (embedder : Embedder) (collection : string) (top_k : Z)
    (lines : list string) :
  verify_rag net complete request_exception message dist
    db embedder collection top_k lines
  = match list_find (fun line => strip line <> "") lines with
    | None =>
        ([LF +:+ "Enter a query (Ctrl+C to exit):" +:+ LF]
           ++ replicate (S (length lines)) "> ",
         EndOfInput)
    | Some (i, line) =>
        ([LF +:+ "Enter a query (Ctrl+C to exit):" +:+ LF]
           ++ replicate (S i) "> ",
         Raised match embed_one (net i 0%nat) embedder (strip line) with
                | Ok _ => TypeError
                | Raise e => e
                end)
    end.
Proof. unfold verify_rag. now rewrite verify_loop_spec. Qed.

(** ** More on ingestion: the files and the batch *)

Lemma lower_append (a b : string) : lower (a +:+ b) = lower a +:+ lower b.
Proof.
  induction a as [| c a IH]; [reflexivity |].
  rewrite append_cons. simpl. now rewrite IH, append_cons.
Qed.

Lemma lower_length (s : string) : String.length (lower s) = String.length s.
Proof. induction s as [| c s IH]; simpl; [reflexivity | now rewrite IH]. Qed.

Lemma substring_append_skip (a b : string) (k m : nat) :
  substring (String.length a + k) m (a +:+ b) = substring k m b.
Proof.
  induction a as [| c a IH]; [reflexivity |].
  rewrite append_cons. simpl. exact IH.
Qed.

Lemma endswith_append (a b suffix : string) :
  endswith b suffix = true -> endswith (a +:+ b) suffix = true.
Proof.
  unfold endswith. intros [Hle Heq]%andb_prop.
  apply Nat.leb_le in Hle. rewrite length_append.
  apply andb_true_intro. split; [apply Nat.leb_le; lia |].
  replace (String.length a + String.length b - String.length suffix)%nat
    with (String.length a + (String.length b - String.length suffix))%nat
    by lia.
  now rewrite substring_append_skip.
Qed.

Lemma elem_of_concat {A : Type} (x : A) (ls : list (list A)) :
  x ∈ concat ls <-> exists l, x ∈ l /\ l ∈ ls.
Proof.
  rewrite list_elem_of_In, in_concat. split.
  - intros (l & Hl & Hx). exists l. now rewrite !list_elem_of_In.
  - intros (l & Hx & Hl). exists l. now rewrite <- !list_elem_of_In.
Qed.

Lemma path_join_suffix (root name : string) :
  exists prefix, path_join root name = prefix +:+ name.
Proof.
  unfold path_join. destruct (String.prefix "/" name); [now exists "" |].
  destruct (String.eqb root "" || endswith root "/"); [now exists root |].
  exists (root +:+ "/"). now rewrite append_assoc.
Qed.

(** X: the files of [ingest_folder] are the text files under the folder.
    Every path listed is [os.path.join] of a directory that [os.walk]
    visits and of one of its file names, and ends in [.txt] or [.md] once
    put in lower case. *)
Theorem list_files_suffix (fs : filesystem) (folder path : string) :
  path ∈ list_files fs folder ->
  (endswith (lower path) ".txt" || endswith (lower path) ".md") = true
  /\ exists root filenames name,
       (root, filenames) ∈ walk fs folder
       /\ name ∈ filenames
       /\ path = path_join root name.
Proof.
  unfold list_files. intros Hpath.
  apply elem_of_concat in Hpath as (paths & Hpath & Hpaths).
  apply list_elem_of_fmap in Hpaths as ([root filenames] & -> & Hwalk).
  apply list_elem_of_fmap in Hpath as (name & -> & Hname).
  apply list_elem_of_In, List.filter_In in Hname as [Hname Hsuffix].
  apply list_elem_of_In in Hname. split; [| now exists root, filenames, name].
  destruct (path_join_suffix root name) as [prefix ->].
  rewrite lower_append.
  apply orb_prop in Hsuffix as [Hsuffix | Hsuffix];
    apply (endswith_append (lower prefix)) in Hsuffix; rewrite Hsuffix;
    [reflexivity | apply orb_true_r].
Qed.

Lemma list_files_suffix_witness :
  (endswith (lower "docs/a.txt") ".txt" || endswith (lower "docs/a.txt") ".md")
  = true
  /\ exists root filenames name,
       (root, filenames) ∈ walk two_files "docs"
       /\ name ∈ filenames
       /\ "docs/a.txt" = path_join root name.
Proof.
  apply (list_files_suffix two_files "docs" "docs/a.txt").
  vm_compute. apply list_elem_of_here.
Defined.
